(** * blaze_util: path and stream helpers of src/main/cpp/util/file.cc

    A shallow embedding of [NormalizePath], [JoinPath], [ReadFrom],
    [WriteTo] and the [DirectoryTreeWalker] behind [GetAllFilesUnder],
    with the properties their specification states.

    Data model.
    - [std::string] is a [list ascii]; the character NUL is an ordinary
      element of it, and [path[size()]] reads as NUL, as in C++11.
    - [int] is 32 bits and [size_t] 64 bits wide (LP64 and LLP64); both are
      carried as [Z], and a conversion that can change the value is written
      out.  Incrementing an [int] that holds [INT_MAX] is undefined
      behaviour: the scan of [NormalizePath] has no result there.
    - [std::vector<string>] is a [list]; [push_back] appends at the end.
    - I/O primitives are state-passing functions over an abstract [World]. *)

From Stdlib Require Import List ZArith Lia Bool Ascii String Arith.
Import ListNotations.

Local Open Scope Z_scope.

(** ** Strings *)

Definition Path := list ascii.

Definition NUL : ascii := Ascii.zero.
Definition slash : ascii := "/"%char.

(** A literal of the source. *)
Definition lit (s : string) : Path := list_ascii_of_string s.

(** [path.empty()] *)
Definition empty {A : Type} (s : list A) : bool :=
  match s with [] => true | _ :: _ => false end.

(** [path.size()] *)
Definition size {A : Type} (s : list A) : Z := Z.of_nat (List.length s).

(** [path[i]], for [0 <= i <= size()]; position [size()] holds NUL. *)
Definition char_at (path : Path) (i : Z) : ascii := nth (Z.to_nat i) path NUL.

(** [string(path, pos, len)] and [path.substr(pos, len)]. *)
Definition substr (path : Path) (pos len : Z) : Path :=
  firstn (Z.to_nat len) (skipn (Z.to_nat pos) path).

(** [path.substr(pos)] *)
Definition substr_from (path : Path) (pos : Z) : Path :=
  skipn (Z.to_nat pos) path.

(** [s1 == s2] on strings. *)
Fixpoint str_eqb (s1 s2 : Path) : bool :=
  match s1, s2 with
  | [], [] => true
  | c1 :: r1, c2 :: r2 => Ascii.eqb c1 c2 && str_eqb r1 r2
  | _, _ => false
  end.

(** [segments.pop_back()] on a non-empty vector. *)
Definition pop_back {A : Type} (v : list A) : list A := removelast v.

(** [segments.push_back(x)] *)
Definition push_back {A : Type} (v : list A) (x : A) : list A := v ++ [x].

(** ** NormalizePath *)

(** The largest [int]. *)
Definition INT_MAX : Z := 2 ^ 31 - 1.

Definition dot : Path := lit ".".
Definition dotdot : Path := lit "..".

(** The locals the scanning loop updates. *)
Record scan_state : Type := ScanState {
  segment_start : Z;
  segments : list Path
}.

(** One pass through the body of [for (int i = 0;; ++i)], before the test
    for the terminating NUL. *)
Definition scan_body (path : Path) (i : Z) (st : scan_state) : scan_state :=
  let c := char_at path i in
  if negb (Ascii.eqb c slash) && negb (Ascii.eqb c NUL) then
    if segment_start st <? 0
    then ScanState i (segments st)
    else st
  else if (segment_start st >=? 0) && (i >? segment_start st) then
    let segment := substr path (segment_start st) (i - segment_start st) in
    if str_eqb segment dotdot then
      if negb (empty (segments st))
      then ScanState (-1) (pop_back (segments st))
      else ScanState (-1) (segments st)
    else if negb (str_eqb segment dot)
    then ScanState (-1) (push_back (segments st) segment)
    else ScanState (-1) (segments st)
  else st.

(** The loop itself.  It leaves through [break] at the first NUL it reads,
    at position [size()] at the latest, so [size() + 1 - i] rounds always
    suffice; [scan] below supplies them.  [None] is a scan without result:
    [++i] at [INT_MAX] overflows the [int] index, which is undefined
    behaviour. *)
Fixpoint scan_loop (fuel : nat) (path : Path) (i : Z) (st : scan_state)
  : option scan_state :=
  match fuel with
  | O => None
  | S fuel' =>
      let st' := scan_body path i st in
      if Ascii.eqb (char_at path i) NUL then Some st'
      else if i >=? INT_MAX then None
      else scan_loop fuel' path (i + 1) st'
  end.

Definition scan (path : Path) : option scan_state :=
  scan_loop (S (List.length path)) path 0 (ScanState (-1) []).

(** [for (const auto &s : segments)] writing to the [ostringstream]. *)
Fixpoint join_loop (leading : bool) (segs : list Path) (first : bool)
  (result : Path) : Path :=
  match segs with
  | [] => result
  | s :: rest =>
      let result := if negb first || leading then result ++ [slash]
                    else result in
      join_loop leading rest false (result ++ s)
  end.

(** [NormalizePath(path)]; [None] when the scan has no result. *)
Definition NormalizePath (path : Path) : option Path :=
  if empty path then Some []
  else
    match scan path with
    | None => None
    | Some st =>
        let segs := segments st in
        if empty segs && Ascii.eqb (char_at path 0) slash then Some (lit "/")
        else
          Some (join_loop (Ascii.eqb (char_at path 0) slash) segs true [])
    end.

Example NormalizePath_of_empty : NormalizePath (lit "") = Some (lit "").
Proof. reflexivity. Qed.

Example NormalizePath_root : NormalizePath (lit "/") = Some (lit "/").
Proof. reflexivity. Qed.

Example NormalizePath_mixed :
  NormalizePath (lit "a/./b/../c") = Some (lit "a/c").
Proof. reflexivity. Qed.

Example NormalizePath_slashes :
  NormalizePath (lit "//usr///lib/./x/") = Some (lit "/usr/lib/x").
Proof. reflexivity. Qed.

(** A NUL inside the string ends the scan like the one at [size()]. *)
Example NormalizePath_embedded_NUL :
  NormalizePath (lit "a/b" ++ NUL :: lit "/c") = Some (lit "a/b").
Proof. reflexivity. Qed.

(** ** NormalizePath, as its specification words it *)

(** The characters the scan reads: those before the first NUL of [path]
    (all of [path] when it holds none). *)
Fixpoint c_str (path : Path) : Path :=
  match path with
  | [] => []
  | c :: rest => if Ascii.eqb c NUL then [] else c :: c_str rest
  end.

Definition emit (cur : Path) : list Path :=
  match cur with [] => [] | _ :: _ => [cur] end.

(** Segments: the maximal non-empty runs of characters other than '/',
    left to right; [cur] is the run read so far. *)
Fixpoint split_acc (cur : Path) (rest : Path) : list Path :=
  match rest with
  | [] => emit cur
  | c :: rest' =>
      if Ascii.eqb c slash then emit cur ++ split_acc [] rest'
      else split_acc (cur ++ [c]) rest'
  end.

Definition path_segments (path : Path) : list Path := split_acc [] path.

(** What one segment does to the stack of retained segments. *)
Definition retain (stack : list Path) (seg : Path) : list Path :=
  if str_eqb seg dotdot then removelast stack
  else if str_eqb seg dot then stack
  else stack ++ [seg].

Definition retained (path : Path) : list Path :=
  fold_left retain (path_segments (c_str path)) [].

(** Retained segments joined with '/'. *)
Fixpoint join_segments (segs : list Path) : Path :=
  match segs with
  | [] => []
  | [s] => s
  | s :: rest => s ++ slash :: join_segments rest
  end.

Definition starts_with_slash (path : Path) : bool :=
  match path with
  | c :: _ => Ascii.eqb c slash
  | [] => false
  end.

Definition ends_with_slash (path : Path) : bool :=
  Ascii.eqb (last path NUL) slash.

Definition NormalizePath_spec (path : Path) : Path :=
  match path with
  | [] => []
  | _ :: _ =>
      match retained path with
      | [] => if starts_with_slash path then [slash] else []
      | segs =>
          (if starts_with_slash path then [slash] else []) ++ join_segments segs
      end
  end.

(** Two '/' in a row somewhere in [path]. *)
Fixpoint has_double_slash (path : Path) : bool :=
  match path with
  | [] => false
  | c :: rest =>
      (Ascii.eqb c slash && starts_with_slash rest) || has_double_slash rest
  end.

(** The paths the scan gets through: the characters before the first NUL
    are few enough for the [int] index to reach that NUL, or the end. *)
Definition fits_int (path : Path) : Prop := size (c_str path) <= INT_MAX.

(** A segment a normalized path may hold. *)
Definition plain_segment (s : Path) : Prop :=
  s <> [] /\ ~ In slash s /\ ~ In NUL s /\ s <> dot /\ s <> dotdot.

(** *** Strings: basic facts *)

Lemma str_eqb_eq (s1 s2 : Path) : str_eqb s1 s2 = true <-> s1 = s2.
Proof.
  revert s2; induction s1 as [|c1 r1 IH]; intros [|c2 r2]; simpl;
    try (split; [discriminate | congruence]); try tauto.
  rewrite andb_true_iff, Ascii.eqb_eq, IH.
  split; [intros [-> ->]; reflexivity | intros H; inversion H; auto].
Qed.

Lemma str_eqb_neq (s1 s2 : Path) : str_eqb s1 s2 = false <-> s1 <> s2.
Proof.
  rewrite <- str_eqb_eq. destruct (str_eqb s1 s2); split; congruence.
Qed.

Lemma firstn_snoc_nth {A : Type} (d : A) (l : list A) (n : nat) :
  (n < List.length l)%nat ->
  firstn n l ++ [nth n l d] = firstn (S n) l.
Proof.
  revert n; induction l as [|x l IH]; intros n Hn; simpl in Hn; [lia|].
  destruct n as [|n]; [reflexivity|].
  cbn [firstn nth app]. f_equal.
  apply IH. lia.
Qed.

Lemma nth_skipn {A : Type} (d : A) (l : list A) (s n : nat) :
  nth n (skipn s l) d = nth (s + n) l d.
Proof.
  revert l; induction s as [|s IH]; intros l; [reflexivity|].
  destruct l as [|x l]; simpl; [destruct n; reflexivity | apply IH].
Qed.

Lemma skipn_cons_nth {A : Type} (d : A) (l : list A) (n : nat) :
  (n < List.length l)%nat ->
  skipn n l = nth n l d :: skipn (S n) l.
Proof.
  revert n; induction l as [|x l IH]; intros n Hn; simpl in Hn; [lia|].
  destruct n as [|n]; [reflexivity|].
  simpl. apply IH. lia.
Qed.

(** *** The scanning loop computes the retained segments *)

(** The segment under way at position [n]. *)
Definition current (path : Path) (n : nat) (st : scan_state) : Path :=
  if segment_start st <? 0 then []
  else substr path (segment_start st) (Z.of_nat n - segment_start st).

Definition scan_inv (n : nat) (st : scan_state) : Prop :=
  segment_start st < 0 \/ 0 <= segment_start st < Z.of_nat n.

Lemma char_at_nat (path : Path) (n : nat) :
  char_at path (Z.of_nat n) = nth n path NUL.
Proof. unfold char_at. now rewrite Nat2Z.id. Qed.

Lemma current_started (path : Path) (n : nat) (st : scan_state) :
  0 <= segment_start st < Z.of_nat n ->
  exists s : nat,
    segment_start st = Z.of_nat s /\ (s < n)%nat /\
    current path n st = firstn (n - s) (skipn s path).
Proof.
  intros H. exists (Z.to_nat (segment_start st)).
  split; [lia|]. split; [lia|].
  unfold current, substr.
  destruct (Z.ltb_spec (segment_start st) 0); [lia|].
  f_equal. lia.
Qed.

Lemma scan_body_inside (path : Path) (n : nat) (st : scan_state) :
  (n < List.length path)%nat ->
  scan_inv n st ->
  nth n path NUL <> slash ->
  nth n path NUL <> NUL ->
  segments (scan_body path (Z.of_nat n) st) = segments st /\
  scan_inv (S n) (scan_body path (Z.of_nat n) st) /\
  current path (S n) (scan_body path (Z.of_nat n) st) =
  current path n st ++ [nth n path NUL].
Proof.
  intros Hn Hinv Hs Hz. unfold scan_body. rewrite char_at_nat.
  apply Ascii.eqb_neq in Hs, Hz. rewrite Hs, Hz. cbn [negb andb].
  destruct (Z.ltb_spec (segment_start st) 0) as [Hneg|Hpos].
  - cbn [segments]. split; [reflexivity|]. split.
    + right. cbn [segment_start]. lia.
    + unfold current at 2.
      destruct (Z.ltb_spec (segment_start st) 0); [|lia].
      unfold current, substr. cbn [segment_start].
      destruct (Z.ltb_spec (Z.of_nat n) 0); [lia|].
      replace (Z.to_nat (Z.of_nat (S n) - Z.of_nat n)) with 1%nat by lia.
      rewrite Nat2Z.id, (skipn_cons_nth NUL path n Hn). reflexivity.
  - destruct Hinv as [Hinv|Hinv]; [lia|].
    split; [reflexivity|]. split; [right; lia|].
    destruct (current_started path n st Hinv) as (s & Hs1 & Hs2 & Hcur).
    assert (Hinv' : 0 <= segment_start st < Z.of_nat (S n)) by lia.
    destruct (current_started path (S n) st Hinv') as (s' & Hs1' & Hs2' & Hcur').
    assert (s' = s) by lia. subst s'.
    rewrite Hcur, Hcur'.
    replace (S n - s)%nat with (S (n - s)) by lia.
    rewrite <- (firstn_snoc_nth NUL).
    + rewrite nth_skipn. do 3 f_equal. lia.
    + rewrite length_skipn. lia.
Qed.

Lemma current_nonempty (path : Path) (n : nat) (st : scan_state) :
  (n <= List.length path)%nat ->
  0 <= segment_start st < Z.of_nat n ->
  current path n st <> [].
Proof.
  intros Hn Hinv.
  destruct (current_started path n st Hinv) as (s & Hs1 & Hs2 & Hcur).
  rewrite Hcur. intros Hnil.
  apply (f_equal (@List.length ascii)) in Hnil.
  rewrite length_firstn, length_skipn in Hnil. simpl in Hnil. lia.
Qed.

Lemma scan_body_boundary (path : Path) (n : nat) (st : scan_state) :
  (n <= List.length path)%nat ->
  scan_inv n st ->
  nth n path NUL = slash \/ nth n path NUL = NUL ->
  segments (scan_body path (Z.of_nat n) st) =
  fold_left retain (emit (current path n st)) (segments st) /\
  segment_start (scan_body path (Z.of_nat n) st) < 0.
Proof.
  intros Hn Hinv Hc. unfold scan_body. rewrite char_at_nat.
  assert (Hb : negb (Ascii.eqb (nth n path NUL) slash) &&
               negb (Ascii.eqb (nth n path NUL) NUL) = false).
  { destruct Hc as [-> | ->]; [reflexivity|].
    now rewrite Ascii.eqb_refl, andb_false_r. }
  rewrite Hb.
  destruct Hinv as [Hneg|Hpos].
  - destruct (Z.geb_spec (segment_start st) 0) as [|_]; [lia|].
    cbn [andb]. unfold current.
    destruct (Z.ltb_spec (segment_start st) 0); [|lia].
    split; [reflexivity | assumption].
  - destruct (Z.geb_spec (segment_start st) 0) as [_|]; [|lia].
    destruct (Z.gtb_spec (Z.of_nat n) (segment_start st)) as [_|]; [|lia].
    cbn [andb].
    pose proof (current_nonempty path n st Hn Hpos) as Hne.
    assert (Hsub : substr path (segment_start st)
                     (Z.of_nat n - segment_start st) = current path n st).
    { unfold current.
      destruct (Z.ltb_spec (segment_start st) 0); [lia | reflexivity]. }
    cbv zeta. rewrite Hsub.
    destruct (current path n st) as [|c cur]; [congruence|].
    cbn [emit fold_left]. unfold retain, pop_back, push_back.
    destruct (str_eqb (c :: cur) dotdot).
    + destruct (segments st); cbn [negb empty segments segment_start];
        split; (reflexivity || lia).
    + destruct (str_eqb (c :: cur) dot); cbn [negb segments segment_start];
        split; (reflexivity || lia).
Qed.

Lemma scan_loop_retained (fuel : nat) :
  forall (path : Path) (n : nat) (st : scan_state),
    (n <= List.length path)%nat ->
    (List.length path - n < fuel)%nat ->
    scan_inv n st ->
    Z.of_nat n + size (c_str (skipn n path)) <= INT_MAX ->
    exists st' : scan_state,
      scan_loop fuel path (Z.of_nat n) st = Some st' /\
      segments st' =
      fold_left retain
        (split_acc (current path n st) (c_str (skipn n path))) (segments st).
Proof.
  induction fuel as [|fuel IH]; intros path n st Hn Hfuel Hinv Hfit; [lia|].
  cbn [scan_loop]. rewrite char_at_nat.
  destruct (Nat.eq_dec n (List.length path)) as [Hend|Hmid].
  - (* position size(): the terminating NUL *)
    rewrite (nth_overflow path NUL) by lia.
    rewrite Ascii.eqb_refl.
    rewrite skipn_all2 by lia. cbn [c_str split_acc].
    eexists. split; [reflexivity|].
    apply scan_body_boundary; auto.
    right. apply nth_overflow. lia.
  - assert (Hlt : (n < List.length path)%nat) by lia.
    rewrite (skipn_cons_nth NUL path n Hlt) in Hfit |- *.
    cbn [c_str] in Hfit |- *.
    destruct (Ascii.eqb_spec (nth n path NUL) NUL) as [Hz|Hz].
    + (* an embedded NUL ends the scan *)
      cbn [split_acc]. eexists. split; [reflexivity|].
      apply scan_body_boundary; auto.
    + cbn [split_acc]. unfold size in Hfit. cbn [List.length] in Hfit.
      destruct (Z.geb_spec (Z.of_nat n) INT_MAX) as [Hmax|Hmax]; [lia|].
      replace (Z.of_nat n + 1) with (Z.of_nat (S n)) by lia.
      assert (Hfit' : Z.of_nat (S n) + size (c_str (skipn (S n) path))
                      <= INT_MAX) by (unfold size; lia).
      destruct (Ascii.eqb_spec (nth n path NUL) slash) as [Hs|Hs].
      * destruct (scan_body_boundary path n st Hn Hinv (or_introl Hs))
          as [Hsegs Hstart].
        destruct (IH path (S n) (scan_body path (Z.of_nat n) st))
          as (st' & Hrun & Hst'); [lia|lia|left; assumption|assumption|].
        exists st'. split; [exact Hrun|].
        rewrite Hst', fold_left_app, <- Hsegs. f_equal.
        unfold current.
        destruct (Z.ltb_spec
          (segment_start (scan_body path (Z.of_nat n) st)) 0); [|lia].
        reflexivity.
      * destruct (scan_body_inside path n st Hlt Hinv Hs Hz)
          as (Hsegs & Hinv' & Hcur).
        destruct (IH path (S n) (scan_body path (Z.of_nat n) st))
          as (st' & Hrun & Hst'); [lia|lia|assumption|assumption|].
        exists st'. split; [exact Hrun|].
        now rewrite Hst', Hsegs, Hcur.
Qed.

(** Past [INT_MAX] characters without a NUL the index overflows, however
    many rounds there are. *)
Lemma scan_loop_overflow (fuel : nat) :
  forall (path : Path) (n : nat) (st : scan_state),
    Z.of_nat n <= INT_MAX ->
    INT_MAX < Z.of_nat n + size (c_str (skipn n path)) ->
    scan_loop fuel path (Z.of_nat n) st = None.
Proof.
  induction fuel as [|fuel IH]; intros path n st Hn Hover; [reflexivity|].
  cbn [scan_loop]. rewrite char_at_nat.
  destruct (Nat.lt_ge_cases n (List.length path)) as [Hlt|Hge].
  - rewrite (skipn_cons_nth NUL path n Hlt) in Hover. cbn [c_str] in Hover.
    destruct (Ascii.eqb_spec (nth n path NUL) NUL) as [Hz|Hz].
    + unfold size in Hover. cbn [List.length] in Hover. lia.
    + unfold size in Hover. cbn [List.length] in Hover.
      destruct (Z.geb_spec (Z.of_nat n) INT_MAX) as [Hmax|Hmax];
        [reflexivity|].
      replace (Z.of_nat n + 1) with (Z.of_nat (S n)) by lia.
      apply IH; [lia | unfold size; lia].
  - rewrite skipn_all2 in Hover by lia. unfold size in Hover.
    cbn [c_str List.length] in Hover. lia.
Qed.

(** The loop leaves through [break]: rounds beyond [size() + 1 - i] are
    never run. *)
Lemma scan_loop_breaks (fuel : nat) :
  forall (fuel' : nat) (path : Path) (n : nat) (st : scan_state),
    (List.length path - n < fuel)%nat ->
    (List.length path - n < fuel')%nat ->
    scan_loop fuel path (Z.of_nat n) st =
    scan_loop fuel' path (Z.of_nat n) st.
Proof.
  induction fuel as [|fuel IH]; intros fuel' path n st H H'; [lia|].
  destruct fuel' as [|fuel']; [lia|].
  cbn [scan_loop]. rewrite char_at_nat.
  destruct (Ascii.eqb_spec (nth n path NUL) NUL) as [Hz|Hz]; [reflexivity|].
  assert (Hlt : (n < List.length path)%nat).
  { destruct (Nat.lt_ge_cases n (List.length path)) as [|Hge]; [assumption|].
    now rewrite nth_overflow in Hz. }
  destruct (Z.of_nat n >=? INT_MAX); [reflexivity|].
  replace (Z.of_nat n + 1) with (Z.of_nat (S n)) by lia.
  apply IH; lia.
Qed.

Lemma scan_retained (path : Path) :
  fits_int path ->
  exists st : scan_state,
    scan path = Some st /\ segments st = retained path.
Proof.
  intros Hfit. unfold scan, retained, path_segments.
  change 0 with (Z.of_nat 0).
  destruct (scan_loop_retained (S (List.length path)) path 0
              (ScanState (-1) [])) as (st & Hrun & Hst);
    [lia | lia | left; cbn; lia | exact Hfit |].
  exists st. split; [exact Hrun | exact Hst].
Qed.

Lemma scan_overflow (path : Path) : ~ fits_int path -> scan path = None.
Proof.
  intros Hfit. unfold scan. change 0 with (Z.of_nat 0).
  apply scan_loop_overflow; [unfold INT_MAX; lia|].
  unfold fits_int in Hfit. cbn [skipn Z.of_nat]. lia.
Qed.

(** *** Segments and the stack of retained segments *)

(** What the split yields: non-empty runs free of '/' and of NUL. *)
Definition run (s : Path) : Prop := s <> [] /\ ~ In slash s /\ ~ In NUL s.

Lemma c_str_no_NUL (path : Path) : ~ In NUL (c_str path).
Proof.
  induction path as [|c rest IH]; simpl; [tauto|].
  destruct (Ascii.eqb_spec c NUL); simpl; [tauto|].
  intros [H|H]; auto.
Qed.

Lemma c_str_id (path : Path) : ~ In NUL path -> c_str path = path.
Proof.
  induction path as [|c rest IH]; simpl; intros H; [reflexivity|].
  destruct (Ascii.eqb_spec c NUL) as [->|_]; [tauto|].
  f_equal. apply IH. tauto.
Qed.

Lemma emit_run (cur : Path) :
  ~ In slash cur -> ~ In NUL cur -> Forall run (emit cur).
Proof.
  intros Hs Hz. destruct cur as [|c cur]; simpl; constructor; auto.
  repeat split; auto. discriminate.
Qed.

Lemma split_acc_run (rest : Path) :
  forall cur : Path,
    ~ In slash cur -> ~ In NUL cur -> ~ In NUL rest ->
    Forall run (split_acc cur rest).
Proof.
  induction rest as [|c rest IH]; intros cur Hs Hz Hr; simpl.
  - now apply emit_run.
  - simpl in Hr. destruct (Ascii.eqb_spec c slash) as [->|Hc].
    + apply Forall_app. split; [now apply emit_run|].
      apply IH; simpl; tauto.
    + apply IH; [| |tauto]; rewrite in_app_iff; simpl; intuition congruence.
Qed.

Lemma path_segments_run (path : Path) :
  ~ In NUL path -> Forall run (path_segments path).
Proof. intros H. apply split_acc_run; simpl; tauto. Qed.

Lemma Forall_removelast {A : Type} (P : A -> Prop) (l : list A) :
  Forall P l -> Forall P (removelast l).
Proof.
  induction 1 as [|x l Hx Hl IH]; simpl; [constructor|].
  destruct l; [constructor | constructor; assumption].
Qed.

Lemma retain_plain (stack : list Path) (seg : Path) :
  Forall plain_segment stack -> run seg ->
  Forall plain_segment (retain stack seg).
Proof.
  intros Hst (Hne & Hs & Hz). unfold retain.
  destruct (str_eqb seg dotdot) eqn:Hdd; [now apply Forall_removelast|].
  destruct (str_eqb seg dot) eqn:Hd; [assumption|].
  apply str_eqb_neq in Hdd, Hd.
  apply Forall_app. split; [assumption|].
  constructor; [|constructor]. repeat split; assumption.
Qed.

Lemma fold_retain_plain (segs : list Path) :
  forall stack : list Path,
    Forall plain_segment stack -> Forall run segs ->
    Forall plain_segment (fold_left retain segs stack).
Proof.
  induction segs as [|s segs IH]; intros stack Hst Hsegs; simpl; auto.
  inversion Hsegs; subst. apply IH; auto using retain_plain.
Qed.

Lemma retained_plain (path : Path) : Forall plain_segment (retained path).
Proof.
  apply fold_retain_plain; [constructor|].
  apply path_segments_run, c_str_no_NUL.
Qed.

Lemma fold_retain_all_plain (segs : list Path) :
  forall stack : list Path,
    Forall plain_segment segs -> fold_left retain segs stack = stack ++ segs.
Proof.
  induction segs as [|s segs IH]; intros stack Hsegs; simpl.
  - now rewrite app_nil_r.
  - inversion Hsegs as [|? ? (_ & _ & _ & Hd & Hdd) Hrest]; subst.
    unfold retain at 2.
    apply str_eqb_neq in Hd, Hdd. rewrite Hd, Hdd.
    rewrite IH by assumption. now rewrite <- app_assoc.
Qed.

(** *** The joining loop *)

Lemma join_loop_rest (leading : bool) (segs : list Path) :
  forall result : Path,
    join_loop leading segs false result =
    result ++ List.concat (map (cons slash) segs).
Proof.
  induction segs as [|s segs IH]; intros result; simpl.
  - now rewrite app_nil_r.
  - rewrite IH. rewrite <- !app_assoc. reflexivity.
Qed.

Lemma join_segments_cons (s : Path) (rest : list Path) :
  join_segments (s :: rest) = s ++ List.concat (map (cons slash) rest).
Proof.
  revert s; induction rest as [|s2 rest IH]; intros s.
  - simpl. now rewrite app_nil_r.
  - change (join_segments (s :: s2 :: rest))
      with (s ++ slash :: join_segments (s2 :: rest)).
    rewrite IH. reflexivity.
Qed.

Lemma join_loop_first (leading : bool) (s : Path) (rest : list Path) :
  join_loop leading (s :: rest) true [] =
  (if leading then [slash] else []) ++ join_segments (s :: rest).
Proof.
  cbn [join_loop negb orb]. rewrite join_loop_rest, join_segments_cons.
  destruct leading; cbn [app]; reflexivity.
Qed.

Lemma char_at_0 (path : Path) :
  Ascii.eqb (char_at path 0) slash = starts_with_slash path.
Proof. destruct path; reflexivity. Qed.

Lemma fits_int_dec (path : Path) : {fits_int path} + {~ fits_int path}.
Proof. unfold fits_int. apply Z_le_dec. Defined.

(** The loops of the source compute what the specification words, on
    every path the [int] index gets through; on the others they have no
    result. *)
Lemma NormalizePath_refines (path : Path) :
  fits_int path -> NormalizePath path = Some (NormalizePath_spec path).
Proof.
  intros Hfit. unfold NormalizePath, NormalizePath_spec.
  destruct path as [|c path]; [reflexivity|].
  cbn [empty].
  destruct (scan_retained (c :: path) Hfit) as (st & -> & Hst).
  cbv zeta. rewrite Hst, char_at_0.
  destruct (retained (c :: path)) as [|s rest].
  - cbn [empty andb]. destruct (starts_with_slash (c :: path)); reflexivity.
  - cbn [empty andb]. f_equal. apply join_loop_first.
Qed.

Lemma NormalizePath_overflow (path : Path) :
  ~ fits_int path -> NormalizePath path = None.
Proof.
  intros Hfit. unfold NormalizePath.
  destruct path as [|c path].
  - exfalso. apply Hfit. unfold fits_int, size, INT_MAX. cbn. lia.
  - cbn [empty]. now rewrite scan_overflow.
Qed.

(** *** The shape of a normalized path *)

(** A leading '/' when [leading], then the segments joined with '/'. *)
Definition render (leading : bool) (segs : list Path) : Path :=
  (if leading then [slash] else []) ++ join_segments segs.

(** The part of a joined path after its first segment. *)
Definition tail_of (rest : list Path) : Path :=
  List.concat (map (cons slash) rest).

Definition single_leading_slash (path : Path) : bool :=
  starts_with_slash path && negb (starts_with_slash (tl path)).

Lemma spec_render (path : Path) :
  NormalizePath_spec path = render (starts_with_slash path) (retained path).
Proof.
  unfold NormalizePath_spec, render.
  destruct path as [|c path]; [reflexivity|].
  destruct (retained (c :: path)); [|reflexivity].
  destruct (starts_with_slash (c :: path)); reflexivity.
Qed.

Lemma plain_segment_run (s : Path) : plain_segment s -> run s.
Proof. intros (H1 & H2 & H3 & _). repeat split; assumption. Qed.

Lemma Forall_plain_run (segs : list Path) :
  Forall plain_segment segs -> Forall run segs.
Proof. intros H. eapply Forall_impl; [|exact H]. apply plain_segment_run. Qed.

Lemma split_acc_app (s : Path) :
  forall cur rest : Path,
    ~ In slash s -> split_acc cur (s ++ rest) = split_acc (cur ++ s) rest.
Proof.
  induction s as [|c s IH]; intros cur rest Hs; simpl.
  - now rewrite app_nil_r.
  - simpl in Hs. destruct (Ascii.eqb_spec c slash) as [->|_]; [tauto|].
    rewrite IH by tauto. now rewrite <- app_assoc.
Qed.

Lemma split_acc_joined (rest : list Path) :
  forall cur s : Path,
    run s -> Forall run rest ->
    split_acc cur (s ++ tail_of rest) = (cur ++ s) :: rest.
Proof.
  induction rest as [|s2 rest IH]; intros cur s (Hne & Hs & _) Hrest.
  - unfold tail_of. simpl. rewrite split_acc_app by assumption. simpl.
    destruct (cur ++ s) eqn:E; [|reflexivity].
    apply app_eq_nil in E. tauto.
  - inversion Hrest; subst.
    unfold tail_of. cbn [map List.concat]. fold (tail_of rest).
    rewrite split_acc_app by assumption.
    cbn [app split_acc]. rewrite Ascii.eqb_refl.
    rewrite IH by assumption. simpl.
    destruct (cur ++ s) eqn:E; [|reflexivity].
    apply app_eq_nil in E. tauto.
Qed.

Lemma path_segments_render (leading : bool) (segs : list Path) :
  Forall run segs -> path_segments (render leading segs) = segs.
Proof.
  intros Hsegs. unfold path_segments, render.
  assert (H : split_acc [] (join_segments segs) = segs).
  { destruct segs as [|s rest]; [reflexivity|].
    inversion Hsegs; subst.
    rewrite join_segments_cons. fold (tail_of rest).
    now rewrite split_acc_joined. }
  destruct leading; [|exact H].
  cbn [app split_acc]. rewrite Ascii.eqb_refl. exact H.
Qed.

Lemma tail_of_no_NUL (rest : list Path) :
  Forall run rest -> ~ In NUL (tail_of rest).
Proof.
  induction 1 as [|s rest (_ & _ & Hz) _ IH]; unfold tail_of; simpl; [tauto|].
  fold (tail_of rest). rewrite in_app_iff.
  intros [H|[H|H]]; [discriminate H | tauto | tauto].
Qed.

Lemma render_no_NUL (leading : bool) (segs : list Path) :
  Forall run segs -> ~ In NUL (render leading segs).
Proof.
  intros Hsegs. unfold render. rewrite in_app_iff.
  assert (H : ~ In NUL (join_segments segs)).
  { destruct segs as [|s rest]; [simpl; tauto|].
    inversion Hsegs as [|? ? (_ & _ & Hz) Hrest]; subst.
    rewrite join_segments_cons. fold (tail_of rest). rewrite in_app_iff.
    pose proof (tail_of_no_NUL rest Hrest). tauto. }
  destruct leading; simpl; [|tauto].
  intros [[H1|[]]|H1]; [discriminate H1 | tauto].
Qed.

Lemma starts_with_slash_run (s rest : Path) :
  run s -> starts_with_slash (s ++ rest) = false.
Proof.
  intros (Hne & Hs & _). destruct s as [|c s]; [congruence|].
  simpl. apply Ascii.eqb_neq. intros ->. apply Hs. now left.
Qed.

Lemma starts_with_slash_join (segs : list Path) :
  Forall run segs -> starts_with_slash (join_segments segs) = false.
Proof.
  intros Hsegs. destruct segs as [|s rest]; [reflexivity|].
  inversion Hsegs; subst. rewrite join_segments_cons.
  now apply starts_with_slash_run.
Qed.

Lemma has_double_slash_app (s rest : Path) :
  ~ In slash s -> has_double_slash (s ++ rest) = has_double_slash rest.
Proof.
  induction s as [|c s IH]; intros Hs; simpl; [reflexivity|].
  simpl in Hs. destruct (Ascii.eqb_spec c slash) as [->|_]; [tauto|].
  simpl. apply IH. tauto.
Qed.

Lemma has_double_slash_tail (rest : list Path) :
  Forall run rest -> has_double_slash (tail_of rest) = false.
Proof.
  induction 1 as [|s rest Hs _ IH]; [reflexivity|].
  unfold tail_of. cbn [map List.concat]. fold (tail_of rest).
  cbn [app has_double_slash]. rewrite Ascii.eqb_refl.
  rewrite (starts_with_slash_run s (tail_of rest) Hs).
  destruct Hs as (_ & Hs & _).
  now rewrite has_double_slash_app.
Qed.

Lemma has_double_slash_join (segs : list Path) :
  Forall run segs -> has_double_slash (join_segments segs) = false.
Proof.
  intros Hsegs. destruct segs as [|s rest]; [reflexivity|].
  inversion Hsegs as [|? ? (_ & Hs & _) Hrest]; subst.
  rewrite join_segments_cons. fold (tail_of rest).
  rewrite has_double_slash_app by assumption.
  now apply has_double_slash_tail.
Qed.

Lemma has_double_slash_render (leading : bool) (segs : list Path) :
  Forall run segs -> has_double_slash (render leading segs) = false.
Proof.
  intros Hsegs. unfold render. destruct leading; cbn [app has_double_slash].
  - rewrite Ascii.eqb_refl, starts_with_slash_join by assumption.
    now apply has_double_slash_join.
  - now apply has_double_slash_join.
Qed.

Lemma starts_with_slash_render (leading : bool) (segs : list Path) :
  Forall run segs -> starts_with_slash (render leading segs) = leading.
Proof.
  intros Hsegs. unfold render. destruct leading; [reflexivity|].
  now apply starts_with_slash_join.
Qed.

Lemma single_leading_slash_render (leading : bool) (segs : list Path) :
  Forall run segs -> single_leading_slash (render leading segs) = leading.
Proof.
  intros Hsegs. unfold single_leading_slash.
  rewrite starts_with_slash_render by assumption.
  destruct leading; [|reflexivity].
  unfold render. cbn [app tl].
  now rewrite starts_with_slash_join.
Qed.

Lemma last_app_nonempty {A : Type} (d : A) (l1 l2 : list A) :
  l2 <> [] -> last (l1 ++ l2) d = last l2 d.
Proof.
  intros H. induction l1 as [|x l1 IH]; [reflexivity|].
  cbn [app last]. destruct (l1 ++ l2) eqn:E; [|exact IH].
  apply app_eq_nil in E. tauto.
Qed.

Lemma last_In {A : Type} (d : A) (l : list A) : l <> [] -> In (last l d) l.
Proof.
  intros H. rewrite (app_removelast_last d H) at 2.
  apply in_or_app. right. now left.
Qed.

Lemma last_joined (rest : list Path) :
  forall s : Path,
    run s -> Forall run rest -> last (s ++ tail_of rest) NUL <> slash.
Proof.
  induction rest as [|s2 rest IH]; intros s (Hne & Hs & _) Hrest.
  - unfold tail_of. simpl. rewrite app_nil_r.
    intros E. apply Hs. rewrite <- E. now apply last_In.
  - inversion Hrest as [|? ? Hs2 Hrest']; subst.
    unfold tail_of. cbn [map List.concat]. fold (tail_of rest).
    rewrite last_app_nonempty by discriminate.
    change ((slash :: s2) ++ tail_of rest)
      with ([slash] ++ (s2 ++ tail_of rest)).
    rewrite last_app_nonempty.
    + now apply IH.
    + destruct Hs2 as (Hne2 & _). destruct s2; [congruence | discriminate].
Qed.

Lemma ends_with_slash_render (leading : bool) (segs : list Path) :
  Forall run segs ->
  ends_with_slash (render leading segs) = true ->
  render leading segs = [slash].
Proof.
  intros Hsegs. unfold ends_with_slash, render.
  destruct segs as [|s rest].
  - destruct leading; [reflexivity | discriminate].
  - inversion Hsegs as [|? ? Hs Hrest]; subst.
    rewrite join_segments_cons. fold (tail_of rest).
    rewrite last_app_nonempty.
    + intros E. apply Ascii.eqb_eq in E. now apply last_joined in E.
    + destruct Hs as (Hne & _). destruct s; [congruence | discriminate].
Qed.

(** Normalizing a rendered stack of plain segments gives it back. *)
Lemma spec_of_render (leading : bool) (segs : list Path) :
  Forall plain_segment segs ->
  NormalizePath_spec (render leading segs) = render leading segs.
Proof.
  intros Hplain. pose proof (Forall_plain_run segs Hplain) as Hrun.
  rewrite spec_render. unfold retained.
  rewrite c_str_id by now apply render_no_NUL.
  rewrite path_segments_render by assumption.
  rewrite fold_retain_all_plain by assumption.
  now rewrite starts_with_slash_render.
Qed.

(** *** What the scan reads, and how long the result is *)

Lemma c_str_app_NUL (p q : Path) : c_str (p ++ NUL :: q) = c_str p.
Proof.
  induction p as [|c p IH]; simpl; [reflexivity|].
  destruct (Ascii.eqb c NUL); [reflexivity | now rewrite IH].
Qed.

Lemma c_str_app_has_NUL (p q : Path) : In NUL p -> c_str (p ++ q) = c_str p.
Proof.
  intros H. apply in_split in H. destruct H as (p1 & p2 & ->).
  rewrite <- app_assoc. cbn [app]. now rewrite !c_str_app_NUL.
Qed.

Lemma c_str_app_no_NUL (p q : Path) :
  ~ In NUL p -> c_str (p ++ q) = p ++ c_str q.
Proof.
  induction p as [|c p IH]; simpl; intros H; [reflexivity|].
  destruct (Ascii.eqb_spec c NUL) as [->|_]; [tauto|].
  f_equal. apply IH. tauto.
Qed.

Lemma starts_with_slash_c_str (p : Path) :
  starts_with_slash (c_str p) = starts_with_slash p.
Proof.
  destruct p as [|c p]; [reflexivity|]. simpl.
  destruct (Ascii.eqb_spec c NUL) as [->|_]; reflexivity.
Qed.

Lemma retained_c_str (p : Path) : retained (c_str p) = retained p.
Proof.
  unfold retained. now rewrite (c_str_id (c_str p)) by apply c_str_no_NUL.
Qed.

Lemma starts_with_slash_app (p q : Path) :
  p <> [] -> starts_with_slash (p ++ q) = starts_with_slash p.
Proof. destruct p; [congruence | reflexivity]. Qed.

(** The characters of the segments, and a separator for each. *)
Fixpoint weight (segs : list Path) : nat :=
  match segs with
  | [] => O
  | s :: rest => (S (List.length s) + weight rest)%nat
  end.

Lemma weight_app (l1 l2 : list Path) :
  weight (l1 ++ l2) = (weight l1 + weight l2)%nat.
Proof. induction l1 as [|s l1 IH]; simpl; [reflexivity | lia]. Qed.

Lemma weight_emit (cur : Path) : (weight (emit cur) <= S (List.length cur))%nat.
Proof. destruct cur; simpl; lia. Qed.

Lemma weight_split_acc (rest : Path) :
  forall cur : Path,
    (weight (split_acc cur rest) <= S (List.length cur + List.length rest))%nat.
Proof.
  induction rest as [|c rest IH]; intros cur; simpl.
  - pose proof (weight_emit cur). lia.
  - destruct (Ascii.eqb c slash).
    + rewrite weight_app. pose proof (weight_emit cur).
      specialize (IH []). simpl in IH. lia.
    + specialize (IH (cur ++ [c])). rewrite length_app in IH. simpl in IH. lia.
Qed.

Lemma weight_removelast (l : list Path) : (weight (removelast l) <= weight l)%nat.
Proof.
  induction l as [|s l IH]; simpl; [lia|].
  destruct l; simpl in *; lia.
Qed.

Lemma weight_retain (stack : list Path) (seg : Path) :
  (weight (retain stack seg) <= weight stack + S (List.length seg))%nat.
Proof.
  unfold retain. destruct (str_eqb seg dotdot).
  - pose proof (weight_removelast stack). lia.
  - destruct (str_eqb seg dot); [lia|]. rewrite weight_app. simpl. lia.
Qed.

Lemma weight_fold_retain (segs : list Path) :
  forall stack : list Path,
    (weight (fold_left retain segs stack) <= weight stack + weight segs)%nat.
Proof.
  induction segs as [|s segs IH]; intros stack; simpl; [lia|].
  specialize (IH (retain stack s)). pose proof (weight_retain stack s). lia.
Qed.

Lemma length_tail_of (rest : list Path) :
  List.length (tail_of rest) = weight rest.
Proof.
  induction rest as [|s rest IH]; [reflexivity|].
  unfold tail_of in *. cbn [map List.concat].
  rewrite length_app. cbn [List.length weight]. lia.
Qed.

Lemma length_join_segments (segs : list Path) :
  segs <> [] -> S (List.length (join_segments segs)) = weight segs.
Proof.
  destruct segs as [|s rest]; [congruence|]. intros _.
  rewrite join_segments_cons. fold (tail_of rest).
  rewrite length_app, length_tail_of. reflexivity.
Qed.

Lemma length_c_str (p : Path) :
  (List.length (c_str p) <= List.length p)%nat.
Proof.
  induction p as [|c p IH]; simpl; [lia|].
  destruct (Ascii.eqb c NUL); simpl; lia.
Qed.

Lemma weight_retained (p : Path) :
  (weight (retained p) <=
   S (List.length p) - (if starts_with_slash p then 1 else 0))%nat.
Proof.
  unfold retained, path_segments.
  pose proof (weight_fold_retain (split_acc [] (c_str p)) []) as H.
  cbn [weight] in H.
  destruct p as [|c p]; [simpl in *; lia|].
  cbn [starts_with_slash c_str] in *.
  destruct (Ascii.eqb_spec c slash) as [->|Hc].
  - cbn [Ascii.eqb] in *. change (Ascii.eqb slash NUL) with false in *.
    cbn [split_acc] in *. rewrite Ascii.eqb_refl in *. cbn [emit app] in *.
    pose proof (weight_split_acc (c_str p) []).
    pose proof (length_c_str p). simpl in *. lia.
  - pose proof (weight_split_acc
                  (if Ascii.eqb c NUL then [] else c :: c_str p) []) as H1.
    pose proof (length_c_str p).
    destruct (Ascii.eqb c NUL); simpl in *; lia.
Qed.

Lemma split_acc_trailing_slash (rest : Path) :
  forall cur : Path,
    split_acc cur (rest ++ [slash]) = split_acc cur rest.
Proof.
  induction rest as [|c rest IH]; intros cur; simpl.
  - apply app_nil_r.
  - destruct (Ascii.eqb c slash); now rewrite IH.
Qed.

Lemma split_acc_slash (a : Path) :
  forall cur b : Path,
    split_acc cur (a ++ slash :: b) = split_acc cur a ++ split_acc [] b.
Proof.
  induction a as [|c a IH]; intros cur b; simpl.
  - reflexivity.
  - destruct (Ascii.eqb c slash); rewrite IH; [apply app_assoc | reflexivity].
Qed.

Lemma retained_app_has_NUL (p q : Path) :
  In NUL p -> retained (p ++ q) = retained p.
Proof. intros H. unfold retained. now rewrite c_str_app_has_NUL. Qed.

Lemma retained_slash (p q : Path) :
  ~ In NUL p ->
  retained (p ++ slash :: q) = fold_left retain (path_segments (c_str q))
                                 (retained p).
Proof.
  intros H. unfold retained, path_segments.
  rewrite c_str_app_no_NUL by assumption.
  change (c_str (slash :: q)) with (slash :: c_str q).
  rewrite split_acc_slash, fold_left_app, (c_str_id p H). reflexivity.
Qed.

Lemma NUL_dec (p : Path) : {In NUL p} + {~ In NUL p}.
Proof. apply in_dec, ascii_dec. Defined.

Lemma path_segments_run_dotdot (x : Path) :
  run x -> split_acc [] (x ++ lit "/..") = [x; dotdot].
Proof.
  intros (Hne & Hs & _). rewrite split_acc_app by assumption.
  cbn. destruct x; [congruence | reflexivity].
Qed.


(** *** The normal form, as a function of every path *)

Lemma spec_c_str (p : Path) :
  NormalizePath_spec (c_str p) = NormalizePath_spec p.
Proof.
  rewrite !spec_render.
  now rewrite starts_with_slash_c_str, retained_c_str.
Qed.

Lemma spec_no_NUL (p : Path) : ~ In NUL (NormalizePath_spec p).
Proof.
  rewrite spec_render. apply render_no_NUL.
  apply Forall_plain_run, retained_plain.
Qed.

Lemma spec_not_longer (p : Path) : size (NormalizePath_spec p) <= size p.
Proof.
  rewrite spec_render. unfold size, render.
  pose proof (weight_retained p) as Hw.
  rewrite length_app.
  destruct (retained p) as [|s rest] eqn:E.
  - destruct p as [|c p]; [simpl; lia|].
    destruct (starts_with_slash (c :: p)); simpl; lia.
  - pose proof (length_join_segments (s :: rest)) as Hj.
    rewrite <- Hj in Hw by discriminate.
    destruct (starts_with_slash p); cbn [List.length] in *; lia.
Qed.

Lemma spec_length (p : Path) :
  size (NormalizePath_spec p) <= size (c_str p).
Proof. rewrite <- spec_c_str. apply spec_not_longer. Qed.

Lemma fits_int_spec (p : Path) :
  fits_int p -> fits_int (NormalizePath_spec p).
Proof.
  unfold fits_int. intros H.
  rewrite c_str_id by apply spec_no_NUL.
  pose proof (spec_length p). lia.
Qed.

Lemma spec_idempotent (p : Path) :
  NormalizePath_spec (NormalizePath_spec p) = NormalizePath_spec p.
Proof.
  rewrite (spec_render p). apply spec_of_render, retained_plain.
Qed.

Lemma length_c_str_app (p q : Path) :
  (List.length (c_str p) <= List.length (c_str (p ++ q)))%nat.
Proof.
  induction p as [|c p IH]; simpl; [lia|].
  destruct (Ascii.eqb c NUL); simpl; lia.
Qed.

Lemma fits_int_app (p q : Path) : fits_int (p ++ q) -> fits_int p.
Proof.
  unfold fits_int, size. pose proof (length_c_str_app p q). lia.
Qed.

Lemma fits_int_no_NUL (p : Path) :
  ~ In NUL p -> size p <= INT_MAX -> fits_int p.
Proof. intros Hz H. unfold fits_int. now rewrite c_str_id. Qed.

(** A result of [NormalizePath] is the normal form of a path the [int]
    index gets through. *)
Lemma NormalizePath_Some (p out : Path) :
  NormalizePath p = Some out -> fits_int p /\ out = NormalizePath_spec p.
Proof.
  intros H. destruct (fits_int_dec p) as [Hfit|Hfit].
  - rewrite (NormalizePath_refines p Hfit) in H. inversion H. auto.
  - rewrite (NormalizePath_overflow p Hfit) in H. discriminate H.
Qed.

(** Two paths the index gets through give the same result when they have
    the same normal form. *)
Lemma NormalizePath_same (p q : Path) :
  fits_int p -> fits_int q ->
  NormalizePath_spec p = NormalizePath_spec q ->
  NormalizePath p = NormalizePath q /\
  exists out : Path, NormalizePath q = Some out.
Proof.
  intros Hp Hq E.
  rewrite (NormalizePath_refines p Hp), (NormalizePath_refines q Hq), E.
  split; [reflexivity | eexists; reflexivity].
Qed.

(** *** Properties of NormalizePath *)

Lemma plain_not_dot (segs : list Path) :
  Forall plain_segment segs -> ~ In dot segs /\ ~ In dotdot segs.
Proof.
  intros H. rewrite Forall_forall in H.
  split; intros Hin; apply H in Hin;
    destruct Hin as (_ & _ & _ & Hd & Hdd); congruence.
Qed.

Lemma spec_normal_form (p : Path) :
  ~ In dot (path_segments (NormalizePath_spec p)) /\
  ~ In dotdot (path_segments (NormalizePath_spec p)) /\
  has_double_slash (NormalizePath_spec p) = false /\
  starts_with_slash (NormalizePath_spec p) = starts_with_slash p /\
  single_leading_slash (NormalizePath_spec p) = starts_with_slash p /\
  (ends_with_slash (NormalizePath_spec p) = true ->
   NormalizePath_spec p = lit "/").
Proof.
  rewrite spec_render.
  pose proof (retained_plain p) as Hplain.
  pose proof (Forall_plain_run _ Hplain) as Hrun.
  rewrite path_segments_render by assumption.
  destruct (plain_not_dot _ Hplain) as [Hd Hdd].
  repeat split; auto.
  - now apply has_double_slash_render.
  - now apply starts_with_slash_render.
  - now apply single_leading_slash_render.
  - now apply ends_with_slash_render.
Qed.

(** C1. [NormalizePath p] has a result for every [p] with at most
    [INT_MAX] characters before its first NUL (beyond that the [int] index
    of the scan overflows).  For every input [p], the result has no "."
    and no ".." segment and no two consecutive '/'; it begins with '/', and
    then with a single one, exactly when [p] begins with '/'; and it ends
    with '/' only when it is "/" itself. *)
Theorem NormalizePath_normal_form (p : Path) :
  (fits_int p -> exists out : Path, NormalizePath p = Some out) /\
  (forall out : Path,
     NormalizePath p = Some out ->
     ~ In dot (path_segments out) /\
     ~ In dotdot (path_segments out) /\
     has_double_slash out = false /\
     starts_with_slash out = starts_with_slash p /\
     single_leading_slash out = starts_with_slash p /\
     (ends_with_slash out = true -> out = lit "/")).
Proof.
  split.
  - intros Hfit. eexists. now apply NormalizePath_refines.
  - intros out H. apply NormalizePath_Some in H. destruct H as [_ ->].
    apply spec_normal_form.
Qed.

Lemma NormalizePath_normal_form_witness :
  (exists out : Path, NormalizePath (lit "//a/./") = Some out) /\
  has_double_slash (lit "/a") = false /\
  single_leading_slash (lit "/a") = true.
Proof.
  destruct (NormalizePath_normal_form (lit "//a/./")) as [Hdef Hout].
  split.
  - apply Hdef. unfold fits_int, size, INT_MAX. cbn. lia.
  - destruct (Hout (lit "/a") eq_refl) as (_ & _ & H3 & _ & H5 & _).
    split; [exact H3 | exact H5].
Defined.

(** C2. The scan handles the segments of a path left to right, over a
    stack of retained segments that starts empty: ".." pops the last
    retained segment when there is one and is dropped when the stack is
    empty, "." is dropped, any other segment is pushed; the result is the
    stack joined with '/', after a leading '/' when the path has one.  The
    segments are the runs between '/' of the characters before the first
    NUL of the path, that is of the whole path when it holds no NUL.  The
    scan gets through every path with at most [INT_MAX] such characters,
    and whatever path it gets through, this is its result.  So
    NormalizePath("/..") is "/" and NormalizePath("a/../../b") is "b". *)
Theorem NormalizePath_segment_rules :
  (forall path : Path,
     fits_int path ->
     exists st : scan_state,
       scan path = Some st /\
       segments st = fold_left retain (path_segments (c_str path)) []) /\
  (forall path : Path,
     fits_int path ->
     NormalizePath path =
     Some (render (starts_with_slash path)
             (fold_left retain (path_segments (c_str path)) []))) /\
  (forall path : Path,
     ~ In NUL path -> size path <= INT_MAX ->
     NormalizePath path =
     Some (render (starts_with_slash path)
             (fold_left retain (path_segments path) []))) /\
  (forall path out : Path,
     NormalizePath path = Some out ->
     out = render (starts_with_slash path)
             (fold_left retain (path_segments (c_str path)) [])) /\
  (forall (stack : list Path) (seg : Path),
     retain (stack ++ [seg]) dotdot = stack) /\
  retain [] dotdot = [] /\
  (forall stack : list Path, retain stack dot = stack) /\
  (forall (stack : list Path) (seg : Path),
     seg <> dot -> seg <> dotdot -> retain stack seg = stack ++ [seg]) /\
  NormalizePath (lit "/..") = Some (lit "/") /\
  NormalizePath (lit "a/../../b") = Some (lit "b").
Proof.
  split; [exact scan_retained|].
  split.
  { intros path Hfit. rewrite NormalizePath_refines by assumption.
    now rewrite spec_render. }
  split.
  { intros path Hz Hsize.
    rewrite NormalizePath_refines by now apply fits_int_no_NUL.
    rewrite spec_render. unfold retained. now rewrite c_str_id. }
  split.
  { intros path out H. apply NormalizePath_Some in H. destruct H as [_ ->].
    apply spec_render. }
  split.
  { intros stack seg. unfold retain. cbn. apply removelast_last. }
  split; [reflexivity|].
  split; [reflexivity|].
  split; [|split; reflexivity].
  intros stack seg Hd Hdd. unfold retain.
  apply str_eqb_neq in Hd, Hdd. now rewrite Hd, Hdd.
Qed.

Lemma NormalizePath_segment_rules_witness :
  retain [lit "a"] (lit "b") = [lit "a"; lit "b"] /\
  NormalizePath (lit "a/./b") = Some (lit "a/b").
Proof.
  destruct NormalizePath_segment_rules
    as (_ & _ & Hnorm & _ & _ & _ & _ & Hpush & _).
  split.
  - apply (Hpush [lit "a"] (lit "b")); discriminate.
  - rewrite (Hnorm (lit "a/./b")); [reflexivity| |].
    + cbn. intuition discriminate.
    + unfold size, INT_MAX. cbn. lia.
Defined.

(** C3. [NormalizePath] is idempotent: whatever result it gives, it gives
    that result back when applied to it; and it gives a result for every
    path with at most [INT_MAX] characters before its first NUL. *)
Theorem NormalizePath_idempotent (p : Path) :
  (fits_int p ->
   exists out : Path,
     NormalizePath p = Some out /\ NormalizePath out = Some out) /\
  (forall out : Path,
     NormalizePath p = Some out -> NormalizePath out = Some out).
Proof.
  assert (H : forall out, NormalizePath p = Some out ->
                          NormalizePath out = Some out).
  { intros out E. apply NormalizePath_Some in E. destruct E as [Hfit ->].
    rewrite NormalizePath_refines by now apply fits_int_spec.
    now rewrite spec_idempotent. }
  split; [|exact H].
  intros Hfit. exists (NormalizePath_spec p).
  pose proof (NormalizePath_refines p Hfit) as E. split; [exact E|].
  now apply H.
Qed.

Lemma NormalizePath_idempotent_witness :
  exists out : Path,
    NormalizePath (lit "a//b/../c/") = Some out /\
    NormalizePath out = Some out.
Proof.
  apply (NormalizePath_idempotent (lit "a//b/../c/")).
  unfold fits_int, size, INT_MAX. cbn. lia.
Defined.

Lemma join_segments_nil (segs : list Path) :
  Forall run segs -> join_segments segs = [] -> segs = [].
Proof.
  intros Hrun E. destruct segs as [|s rest]; [reflexivity|].
  inversion Hrun as [|? ? (Hne & _) _]; subst.
  rewrite join_segments_cons in E. apply app_eq_nil in E. tauto.
Qed.

Lemma spec_empty (p : Path) :
  NormalizePath_spec p = [] ->
  starts_with_slash p = false /\ retained p = [].
Proof.
  intros E. rewrite spec_render in E. unfold render in E.
  apply app_eq_nil in E. destruct E as [E1 E2].
  split; [destruct (starts_with_slash p); [discriminate|reflexivity]|].
  apply join_segments_nil; [|assumption].
  apply Forall_plain_run, retained_plain.
Qed.

(** C10. [NormalizePath] returns the empty string for every non-empty
    path that does not begin with '/' and whose segments all cancel, leaving
    the stack of retained segments empty, and for no other non-empty path.
    The segments are those the scan reads: the ones before the first NUL of
    the path, all of them when the path holds no NUL; the scan gets
    through when these characters are at most [INT_MAX].  "." and "a/.."
    are such paths, so an empty result does not tell that the input was
    empty. *)
Theorem NormalizePath_empty_result :
  (forall (path : Path) (st : scan_state),
     path <> [] -> starts_with_slash path = false ->
     scan path = Some st -> segments st = [] ->
     NormalizePath path = Some []) /\
  (forall path : Path,
     fits_int path ->
     path <> [] -> starts_with_slash path = false -> retained path = [] ->
     NormalizePath path = Some []) /\
  (forall path : Path,
     size path <= INT_MAX ->
     path <> [] -> ~ In NUL path -> starts_with_slash path = false ->
     fold_left retain (path_segments path) [] = [] ->
     NormalizePath path = Some []) /\
  (forall path : Path,
     NormalizePath path = Some [] ->
     starts_with_slash path = false /\ retained path = []) /\
  NormalizePath (lit ".") = Some (lit "") /\
  NormalizePath (lit "a/..") = Some (lit "") /\
  (exists path : Path, path <> [] /\ NormalizePath path = Some []).
Proof.
  split.
  { intros path st Hne Hs Hscan Hsegs. unfold NormalizePath.
    destruct path as [|c path]; [congruence|]. cbn [empty].
    rewrite Hscan. cbv zeta. rewrite Hsegs, char_at_0, Hs. reflexivity. }
  split.
  { intros path Hfit _ Hs Hr.
    rewrite NormalizePath_refines, spec_render, Hs, Hr by assumption.
    reflexivity. }
  split.
  { intros path Hsize _ Hz Hs Hr.
    rewrite NormalizePath_refines by now apply fits_int_no_NUL.
    rewrite spec_render, Hs. unfold retained.
    rewrite c_str_id, Hr by assumption. reflexivity. }
  split.
  { intros path E. apply NormalizePath_Some in E. destruct E as [_ E].
    now apply spec_empty. }
  split; [reflexivity|]. split; [reflexivity|].
  exists (lit "."). split; [discriminate | reflexivity].
Qed.

Lemma NormalizePath_empty_result_witness :
  NormalizePath (lit "x/y/../.././..") = Some [].
Proof.
  destruct NormalizePath_empty_result as (_ & H & _).
  apply (H (lit "x/y/../.././.."));
    [unfold fits_int, size, INT_MAX; cbn; lia
    | discriminate | reflexivity | reflexivity].
Defined.

(** ** JoinPath *)

(** [string::npos] *)
Definition npos : Z := 2 ^ 64 - 1.

(** [path.find(c)]: the first position of [c] in [path], [npos] if none. *)
Fixpoint find_from (c : ascii) (path : Path) (pos : Z) : Z :=
  match path with
  | [] => npos
  | d :: rest => if Ascii.eqb d c then pos else find_from c rest (pos + 1)
  end.

Definition find_char (path : Path) (c : ascii) : Z := find_from c path 0.

Definition JoinPath (path1 path2 : Path) : Path :=
  if empty path1 then
    path2
  else if Ascii.eqb (char_at path1 (size path1 - 1)) slash then
    if find_char path2 slash =? 0
    then path1 ++ substr_from path2 1
    else path1 ++ path2
  else
    if find_char path2 slash =? 0
    then path1 ++ path2
    else (path1 ++ lit "/") ++ path2.

Lemma find_from_positive (c : ascii) (path : Path) :
  forall pos : Z, 0 < pos -> find_from c path pos <> 0.
Proof.
  induction path as [|d rest IH]; intros pos Hpos; simpl.
  - unfold npos. lia.
  - destruct (Ascii.eqb d c); [lia | apply IH; lia].
Qed.

Lemma find_char_0 (path : Path) :
  (find_char path slash =? 0) = starts_with_slash path.
Proof.
  destruct path as [|d rest]; [reflexivity|].
  unfold find_char. simpl. destruct (Ascii.eqb d slash); [reflexivity|].
  apply Z.eqb_neq, find_from_positive. lia.
Qed.

Lemma char_at_last (path : Path) :
  path <> [] -> char_at path (size path - 1) = last path NUL.
Proof.
  intros Hne. destruct (exists_last Hne) as (front & c & ->).
  unfold char_at, size. rewrite last_last, length_app. cbn [List.length].
  replace (Z.to_nat (Z.of_nat (List.length front + 1) - 1))
    with (List.length front) by lia.
  rewrite app_nth2 by lia. now rewrite Nat.sub_diag.
Qed.

Lemma JoinPath_nonempty (a b : Path) :
  a <> [] ->
  JoinPath a b =
  if ends_with_slash a
  then (if starts_with_slash b then a ++ tl b else a ++ b)
  else (if starts_with_slash b then a ++ b else a ++ [slash] ++ b).
Proof.
  intros Hne. unfold JoinPath.
  rewrite char_at_last, find_char_0 by assumption.
  destruct a as [|c a]; [congruence|]. cbn [empty].
  fold (ends_with_slash (c :: a)).
  assert (Htl : substr_from b 1 = tl b) by (destruct b; reflexivity).
  rewrite Htl, <- app_assoc. reflexivity.
Qed.

Lemma ends_with_slash_nonempty (a : Path) :
  ends_with_slash a = true -> a <> [].
Proof. intros H ->. discriminate H. Qed.

(** C8. The case rules of [JoinPath]: an empty first path gives the second
    one back; "a/" and "/b" join without b's leading '/'; "a/" and "b", and
    "a" and "/b", join as they are; "a" and "b" get a '/' between them. *)
Theorem JoinPath_cases :
  (forall b : Path, JoinPath [] b = b) /\
  (forall a b : Path,
     ends_with_slash a = true -> starts_with_slash b = true ->
     JoinPath a b = a ++ tl b) /\
  (forall a b : Path,
     ends_with_slash a = true -> starts_with_slash b = false ->
     JoinPath a b = a ++ b) /\
  (forall a b : Path,
     a <> [] -> ends_with_slash a = false -> starts_with_slash b = false ->
     JoinPath a b = a ++ [slash] ++ b) /\
  JoinPath (lit "foo/") (lit "/bar") = lit "foo/bar" /\
  JoinPath (lit "foo") (lit "bar") = lit "foo/bar" /\
  JoinPath (lit "foo") (lit "/bar") = lit "foo/bar".
Proof.
  split; [reflexivity|].
  split.
  { intros a b Ha Hb.
    rewrite JoinPath_nonempty by now apply ends_with_slash_nonempty.
    now rewrite Ha, Hb. }
  split.
  { intros a b Ha Hb.
    rewrite JoinPath_nonempty by now apply ends_with_slash_nonempty.
    now rewrite Ha, Hb. }
  split.
  { intros a b Hne Ha Hb. rewrite JoinPath_nonempty by assumption.
    now rewrite Ha, Hb. }
  repeat split.
Qed.

Lemma JoinPath_cases_witness :
  JoinPath (lit "a/") (lit "/b") = lit "a/b" /\
  JoinPath (lit "a/") (lit "b") = lit "a/b" /\
  JoinPath (lit "a") (lit "b") = lit "a/b".
Proof.
  destruct JoinPath_cases as (_ & H1 & H2 & H3 & _).
  split; [|split].
  - apply (H1 (lit "a/") (lit "/b")); reflexivity.
  - apply (H2 (lit "a/") (lit "b")); reflexivity.
  - apply (H3 (lit "a") (lit "b")); [discriminate | reflexivity | reflexivity].
Defined.

Lemma has_double_slash_concat (a b : Path) :
  ends_with_slash a = false ->
  has_double_slash (a ++ b) = has_double_slash a || has_double_slash b.
Proof.
  induction a as [|c a IH]; intros Hend; [reflexivity|].
  destruct a as [|c2 a].
  - unfold ends_with_slash in Hend. cbn in Hend. cbn. now rewrite Hend.
  - assert (Hend' : ends_with_slash (c2 :: a) = false) by exact Hend.
    change ((c :: c2 :: a) ++ b) with (c :: ((c2 :: a) ++ b)).
    cbn [has_double_slash]. rewrite IH by assumption.
    cbn [app starts_with_slash]. now rewrite orb_assoc.
Qed.

(** C9, as the code has it.  When [a] is not empty and does not end with
    '/' and [b] starts with '/', [JoinPath a b] is [a] followed by [b]: the
    junction holds the one '/' that opens [b], after a character of [a]
    that is not '/'.  The result has two '/' in a row only where [a] or [b]
    has them; JoinPath("foo", "/bar") is "foo/bar" and has none. *)
Theorem JoinPath_keeps_separator (a b : Path) :
  a <> [] -> ends_with_slash a = false -> starts_with_slash b = true ->
  JoinPath a b = a ++ b /\
  char_at (JoinPath a b) (size a - 1) <> slash /\
  char_at (JoinPath a b) (size a) = slash /\
  has_double_slash (JoinPath a b) = has_double_slash a || has_double_slash b.
Proof.
  intros Hne Ha Hb.
  assert (E : JoinPath a b = a ++ b).
  { rewrite JoinPath_nonempty by assumption. now rewrite Ha, Hb. }
  rewrite E. split; [reflexivity|].
  split; [|split].
  - unfold char_at. rewrite app_nth1.
    + fold (char_at a (size a - 1)). rewrite char_at_last by assumption.
      unfold ends_with_slash in Ha. now apply Ascii.eqb_neq.
    + unfold size. destruct a; [congruence|]. cbn [List.length]. lia.
  - unfold char_at, size. rewrite Nat2Z.id, app_nth2 by lia.
    rewrite Nat.sub_diag. destruct b as [|c b]; [discriminate|].
    cbn in Hb |- *. now apply Ascii.eqb_eq.
  - now apply has_double_slash_concat.
Qed.

Lemma JoinPath_keeps_separator_witness :
  JoinPath (lit "foo") (lit "/bar") = lit "foo" ++ lit "/bar" /\
  has_double_slash (JoinPath (lit "foo") (lit "/bar")) = false.
Proof.
  destruct (JoinPath_keeps_separator (lit "foo") (lit "/bar"))
    as (H1 & _ & _ & H4); [discriminate | reflexivity | reflexivity |].
  split; [exact H1 | exact H4].
Defined.

(** C9, as the specification states it, fails: joining "foo" and "/bar"
    gives "foo/bar", in which no two '/' are adjacent. *)
Lemma JoinPath_no_doubled_separator :
  JoinPath (lit "foo") (lit "/bar") = lit "foo/bar" /\
  has_double_slash (JoinPath (lit "foo") (lit "/bar")) = false /\
  ~ (forall a b : Path,
       a <> [] -> ends_with_slash a = false -> starts_with_slash b = true ->
       has_double_slash (JoinPath a b) = true).
Proof.
  split; [reflexivity|]. split; [reflexivity|].
  intros H.
  assert (E : has_double_slash (JoinPath (lit "foo") (lit "/bar")) = true)
    by (apply H; [discriminate | reflexivity | reflexivity]).
  discriminate E.
Qed.

(** ** Further properties of NormalizePath and JoinPath *)

(** A literal path is short enough for the scan. *)
Ltac fits_literal := unfold fits_int, size, INT_MAX; cbn; lia.

Lemma length_c_str_app_le (a x y : Path) :
  (List.length (c_str x) <= List.length (c_str y))%nat ->
  (List.length (c_str (a ++ x)) <= List.length (c_str (a ++ y)))%nat.
Proof.
  intros H. induction a as [|c a IH]; [exact H|]. simpl.
  destruct (Ascii.eqb c NUL); simpl; lia.
Qed.

Lemma fits_int_app_le (a x y : Path) :
  (List.length (c_str x) <= List.length (c_str y))%nat ->
  fits_int (a ++ y) -> fits_int (a ++ x).
Proof.
  intros H. unfold fits_int, size.
  pose proof (length_c_str_app_le a x y H). lia.
Qed.

Lemma length_c_str_cons (c : ascii) (p : Path) :
  (List.length (c_str p) <= List.length (c_str (slash :: p)))%nat.
Proof. change (c_str (slash :: p)) with (slash :: c_str p). simpl. lia. Qed.

(** *** The first NUL *)

(** The first NUL of a path ends it: what follows does not reach the
    result, which holds no NUL itself.  This is so for every path with at
    most [INT_MAX] characters before that NUL, the paths the scan gets
    through. *)
Theorem NormalizePath_stops_at_NUL (p q : Path) :
  fits_int p ->
  exists out : Path,
    NormalizePath p = Some out /\
    NormalizePath (p ++ NUL :: q) = Some out /\
    NormalizePath (c_str p) = Some out /\
    ~ In NUL out.
Proof.
  intros Hfit. exists (NormalizePath_spec p).
  assert (Hq : fits_int (p ++ NUL :: q))
    by (unfold fits_int in *; now rewrite c_str_app_NUL).
  assert (Hc : fits_int (c_str p))
    by (unfold fits_int in *; now rewrite c_str_id by apply c_str_no_NUL).
  rewrite !NormalizePath_refines by assumption.
  split; [reflexivity|]. split; [|split].
  - f_equal. rewrite <- (spec_c_str (p ++ NUL :: q)), <- (spec_c_str p).
    now rewrite c_str_app_NUL.
  - f_equal. apply spec_c_str.
  - apply spec_no_NUL.
Qed.

Lemma NormalizePath_stops_at_NUL_witness :
  exists out : Path,
    NormalizePath (lit "a/b") = Some out /\
    NormalizePath (lit "a/b" ++ NUL :: lit "/c") = Some out /\
    NormalizePath (c_str (lit "a/b")) = Some out /\
    ~ In NUL out.
Proof. apply NormalizePath_stops_at_NUL. fits_literal. Defined.

(** *** Lengths *)

(** Normalizing never makes a path longer: the result, which exists for
    every path with at most [INT_MAX] characters before its first NUL, is
    no longer than these characters. *)
Theorem NormalizePath_not_longer (p : Path) :
  fits_int p ->
  exists out : Path,
    NormalizePath p = Some out /\
    size out <= size (c_str p) /\ size out <= size p.
Proof.
  intros Hfit. exists (NormalizePath_spec p).
  split; [now apply NormalizePath_refines|].
  split; [apply spec_length | apply spec_not_longer].
Qed.

Lemma NormalizePath_not_longer_witness :
  exists out : Path,
    NormalizePath (lit "/a/../b") = Some out /\
    size out <= size (c_str (lit "/a/../b")) /\
    size out <= size (lit "/a/../b").
Proof. apply NormalizePath_not_longer. fits_literal. Defined.

(** *** Paths that normalize alike *)

Lemma spec_trailing_slash (p : Path) :
  p <> [] ->
  NormalizePath_spec (p ++ [slash]) = NormalizePath_spec p /\
  NormalizePath_spec (p ++ lit "/.") = NormalizePath_spec p.
Proof.
  intros Hne. rewrite !spec_render.
  rewrite !starts_with_slash_app by assumption.
  destruct (NUL_dec p) as [Hz|Hz].
  - now rewrite !retained_app_has_NUL.
  - change [slash] with (slash :: lit "").
    change (lit "/.") with (slash :: lit ".").
    rewrite !retained_slash by assumption. split; reflexivity.
Qed.

(** A '/' or a "/." at the end of a path does not change the result, as
    long as the longer path is one the scan gets through. *)
Theorem NormalizePath_trailing_slash (p : Path) :
  p <> [] -> fits_int (p ++ lit "/.") ->
  exists out : Path,
    NormalizePath p = Some out /\
    NormalizePath (p ++ [slash]) = Some out /\
    NormalizePath (p ++ lit "/.") = Some out.
Proof.
  intros Hne Hfit. exists (NormalizePath_spec p).
  assert (H1 : fits_int (p ++ [slash])).
  { apply (fits_int_app (p ++ [slash]) (lit ".")).
    now rewrite <- app_assoc. }
  assert (H0 : fits_int p) by now apply (fits_int_app p [slash]).
  destruct (spec_trailing_slash p Hne) as [E1 E2].
  rewrite !NormalizePath_refines by assumption.
  now rewrite E1, E2.
Qed.

Lemma NormalizePath_trailing_slash_witness :
  exists out : Path,
    NormalizePath (lit "a/b") = Some out /\
    NormalizePath (lit "a/b" ++ [slash]) = Some out /\
    NormalizePath (lit "a/b" ++ lit "/.") = Some out.
Proof.
  apply NormalizePath_trailing_slash; [discriminate | fits_literal].
Defined.

Lemma spec_repeated_slash (a b : Path) :
  NormalizePath_spec (a ++ slash :: slash :: b) =
  NormalizePath_spec (a ++ slash :: b).
Proof.
  rewrite !spec_render. f_equal.
  - destruct a; reflexivity.
  - destruct (NUL_dec a) as [Hz|Hz].
    + now rewrite !retained_app_has_NUL.
    + now rewrite !retained_slash.
Qed.

(** Several '/' in a row count as one, in every path the scan gets
    through. *)
Theorem NormalizePath_repeated_slash (a b : Path) :
  fits_int (a ++ slash :: slash :: b) ->
  exists out : Path,
    NormalizePath (a ++ slash :: slash :: b) = Some out /\
    NormalizePath (a ++ slash :: b) = Some out.
Proof.
  intros Hfit. exists (NormalizePath_spec (a ++ slash :: b)).
  assert (H1 : fits_int (a ++ slash :: b)).
  { apply (fits_int_app_le a (slash :: b) (slash :: slash :: b));
      [|assumption].
    apply (length_c_str_cons slash (slash :: b)). }
  rewrite !NormalizePath_refines by assumption.
  now rewrite spec_repeated_slash.
Qed.

Lemma NormalizePath_repeated_slash_witness :
  exists out : Path,
    NormalizePath (lit "a" ++ slash :: slash :: lit "b") = Some out /\
    NormalizePath (lit "a" ++ slash :: lit "b") = Some out.
Proof. apply NormalizePath_repeated_slash. fits_literal. Defined.

Lemma render_fits (leading : bool) (segs : list Path) :
  Forall plain_segment segs ->
  size (render leading segs) <= INT_MAX ->
  fits_int (render leading segs).
Proof.
  intros Hplain Hsize. apply fits_int_no_NUL; [|assumption].
  now apply render_no_NUL, Forall_plain_run.
Qed.

(** The paths [NormalizePath] leaves as they are: plain segments joined by
    single '/', after at most one leading '/', of at most [INT_MAX]
    characters in all.  They are also exactly the paths it returns. *)
Theorem NormalizePath_fixed_points (p : Path) :
  (NormalizePath p = Some p <->
   size p <= INT_MAX /\
   exists (leading : bool) (segs : list Path),
     Forall plain_segment segs /\ p = render leading segs) /\
  ((exists q : Path, NormalizePath q = Some p) <-> NormalizePath p = Some p).
Proof.
  split; split.
  - intros E. apply NormalizePath_Some in E. destruct E as [Hfit E].
    split.
    + unfold fits_int in Hfit. rewrite c_str_id in Hfit; [assumption|].
      rewrite E. apply spec_no_NUL.
    + exists (starts_with_slash p), (retained p).
      split; [apply retained_plain|].
      rewrite E at 1. apply spec_render.
  - intros (Hsize & leading & segs & Hplain & ->).
    rewrite NormalizePath_refines by now apply render_fits.
    f_equal. now apply spec_of_render.
  - intros (q & E). apply NormalizePath_Some in E. destruct E as [Hfit ->].
    rewrite NormalizePath_refines by now apply fits_int_spec.
    f_equal. apply spec_idempotent.
  - intros E. now exists p.
Qed.

Lemma fits_int_cons (c : ascii) (p : Path) :
  c <> NUL -> fits_int (c :: p) -> fits_int p.
Proof.
  intros Hc. unfold fits_int, size. cbn [c_str].
  destruct (Ascii.eqb_spec c NUL); [congruence|].
  cbn [List.length]. lia.
Qed.

(** ".." as the first segment is dropped: an absolute path stays at the
    root, and a relative path loses the step up.  The longer path is to be
    one the scan gets through. *)
Theorem NormalizePath_leading_dotdot (p : Path) :
  (fits_int (lit "/../" ++ p) ->
   exists out : Path,
     NormalizePath (lit "/../" ++ p) = Some out /\
     NormalizePath (lit "/" ++ p) = Some out) /\
  (starts_with_slash p = false -> fits_int (lit "../" ++ p) ->
   exists out : Path,
     NormalizePath (lit "../" ++ p) = Some out /\
     NormalizePath p = Some out).
Proof.
  split.
  - intros Hfit. exists (NormalizePath_spec (lit "/" ++ p)).
    assert (H1 : fits_int (lit "/" ++ p)).
    { cbn [lit list_ascii_of_string app] in *.
      do 3 (apply fits_int_cons in Hfit; [|discriminate]). exact Hfit. }
    rewrite !NormalizePath_refines by assumption.
    split; [|reflexivity]. rewrite !spec_render. reflexivity.
  - intros Hs Hfit. exists (NormalizePath_spec p).
    assert (H1 : fits_int p).
    { cbn [lit list_ascii_of_string app] in *.
      do 3 (apply fits_int_cons in Hfit; [|discriminate]). exact Hfit. }
    rewrite !NormalizePath_refines by assumption.
    split; [|reflexivity]. rewrite !spec_render.
    change (starts_with_slash (lit "../" ++ p)) with false. rewrite Hs.
    reflexivity.
Qed.

Lemma NormalizePath_leading_dotdot_witness :
  (exists out : Path,
     NormalizePath (lit "/../" ++ lit "x") = Some out /\
     NormalizePath (lit "/" ++ lit "x") = Some out) /\
  (exists out : Path,
     NormalizePath (lit "../" ++ lit "x") = Some out /\
     NormalizePath (lit "x") = Some out).
Proof.
  destruct (NormalizePath_leading_dotdot (lit "x")) as [H1 H2].
  split.
  - apply H1. fits_literal.
  - apply H2; [reflexivity | fits_literal].
Defined.

Lemma spec_segment_and_back (p x : Path) :
  p <> [] -> plain_segment x ->
  NormalizePath_spec (p ++ slash :: x ++ lit "/..") = NormalizePath_spec p.
Proof.
  intros Hne Hx. rewrite !spec_render.
  rewrite starts_with_slash_app by assumption. f_equal.
  destruct (NUL_dec p) as [Hz|Hz]; [now apply retained_app_has_NUL|].
  rewrite retained_slash by assumption.
  pose proof (plain_segment_run x Hx) as Hrun.
  assert (Hzx : ~ In NUL (x ++ lit "/..")).
  { destruct Hrun as (_ & _ & Hzx). rewrite in_app_iff. cbn.
    intuition discriminate. }
  rewrite (c_str_id _ Hzx). unfold path_segments.
  rewrite path_segments_run_dotdot by assumption.
  cbn [fold_left]. destruct Hx as (_ & _ & _ & Hd & Hdd).
  unfold retain at 2. apply str_eqb_neq in Hd, Hdd. rewrite Hd, Hdd.
  unfold retain. change (str_eqb dotdot dotdot) with true. cbv iota.
  apply removelast_last.
Qed.

(** A segment followed by ".." leads back: appending "/x/.." to a path
    does not change the result, when the longer path is one the scan gets
    through. *)
Theorem NormalizePath_segment_and_back (p x : Path) :
  p <> [] -> plain_segment x ->
  fits_int (p ++ slash :: x ++ lit "/..") ->
  exists out : Path,
    NormalizePath (p ++ slash :: x ++ lit "/..") = Some out /\
    NormalizePath p = Some out.
Proof.
  intros Hne Hx Hfit. exists (NormalizePath_spec p).
  pose proof (fits_int_app _ _ Hfit) as H0.
  rewrite !NormalizePath_refines by assumption.
  now rewrite spec_segment_and_back.
Qed.

Lemma NormalizePath_segment_and_back_witness :
  exists out : Path,
    NormalizePath (lit "/usr" ++ slash :: lit "lib" ++ lit "/..") =
      Some out /\
    NormalizePath (lit "/usr") = Some out.
Proof.
  apply NormalizePath_segment_and_back; [discriminate| |fits_literal].
  repeat split; cbn; intuition discriminate.
Defined.

Lemma repeat_no_NUL (c : ascii) (n : nat) : c <> NUL -> ~ In NUL (repeat c n).
Proof.
  intros Hc H. apply repeat_spec in H. congruence.
Qed.

Lemma fits_int_repeat (c : ascii) (n : nat) :
  c <> NUL -> fits_int (repeat c n) <-> Z.of_nat n <= INT_MAX.
Proof.
  intros Hc. unfold fits_int, size.
  rewrite (c_str_id _ (repeat_no_NUL c n Hc)), repeat_length. tauto.
Qed.

(** [NormalizePath] has a result exactly on the paths with at most
    [INT_MAX] characters before their first NUL: there [int i] reaches
    the NUL; on a longer one [++i] runs past [INT_MAX].  A path of
    [2^31 - 1] characters is normalized, one of [2^31] is not. *)
Theorem NormalizePath_defined (p : Path) :
  ((exists out : Path, NormalizePath p = Some out) <-> fits_int p) /\
  (NormalizePath p = None <-> INT_MAX < size (c_str p)) /\
  NormalizePath (repeat "a"%char (Z.to_nat (2 ^ 31 - 1))) =
    Some (repeat "a"%char (Z.to_nat (2 ^ 31 - 1))) /\
  NormalizePath (repeat "a"%char (Z.to_nat (2 ^ 31))) = None.
Proof.
  assert (Ha : "a"%char <> NUL) by discriminate.
  split; [|split; [|split]].
  - split.
    + intros [out H]. now apply NormalizePath_Some in H.
    + intros H. eexists. now apply NormalizePath_refines.
  - split.
    + intros H. destruct (fits_int_dec p) as [Hfit|Hfit].
      * rewrite (NormalizePath_refines p Hfit) in H. discriminate H.
      * unfold fits_int in Hfit. lia.
    + intros H. apply NormalizePath_overflow. unfold fits_int. lia.
  - generalize (Z.to_nat (2 ^ 31 - 1)) (Z2Nat.id (2 ^ 31 - 1) ltac:(lia)).
    intros n Hn.
    assert (Hfit : fits_int (repeat "a"%char n)).
    { apply fits_int_repeat; [exact Ha|]. unfold INT_MAX. lia. }
    rewrite (NormalizePath_refines _ Hfit). f_equal.
    apply (spec_of_render false [repeat "a"%char n]).
    constructor; [|constructor].
    destruct n as [|[|[|n]]]; [lia | | |];
      (split; [discriminate|]);
      (split; [intros H; apply repeat_spec in H; discriminate H|]);
      (split; [now apply repeat_no_NUL|]);
      split; discriminate.
  - generalize (Z.to_nat (2 ^ 31)) (Z2Nat.id (2 ^ 31) ltac:(lia)).
    intros n Hn. apply NormalizePath_overflow.
    rewrite fits_int_repeat by exact Ha. unfold INT_MAX. lia.
Qed.

(** *** JoinPath: the shape of the result *)

Lemma ends_with_slash_snoc (a : Path) :
  ends_with_slash a = true -> exists a0 : Path, a = a0 ++ [slash].
Proof.
  intros H. destruct a as [|c a]; [discriminate H|].
  destruct (@exists_last _ (c :: a)) as (a0 & d & E); [discriminate|].
  exists a0. rewrite E in *. unfold ends_with_slash in H.
  rewrite last_last in H. apply Ascii.eqb_eq in H. now subst d.
Qed.

Lemma ends_with_slash_app (a b : Path) :
  b <> [] -> ends_with_slash (a ++ b) = ends_with_slash b.
Proof.
  intros H. unfold ends_with_slash. now rewrite last_app_nonempty.
Qed.

Lemma starts_with_slash_cons (b : Path) :
  starts_with_slash b = true -> b = slash :: tl b.
Proof.
  destruct b as [|c b]; [discriminate|]. simpl. intros H.
  apply Ascii.eqb_eq in H. now subst c.
Qed.

Lemma JoinPath_nil_iff (a b : Path) :
  JoinPath a b = [] <-> a = [] /\ b = [].
Proof.
  destruct a as [|c a]; [cbn; intuition congruence|].
  rewrite JoinPath_nonempty by discriminate.
  split; [|intros [H _]; discriminate H].
  destruct (ends_with_slash (c :: a)), (starts_with_slash b); discriminate.
Qed.

Lemma JoinPath_starts (a b : Path) :
  a <> [] -> starts_with_slash (JoinPath a b) = starts_with_slash a.
Proof.
  intros Hne. rewrite JoinPath_nonempty by assumption.
  destruct a as [|c a]; [congruence|].
  destruct (ends_with_slash (c :: a)), (starts_with_slash b); reflexivity.
Qed.

Lemma JoinPath_ends (a b : Path) :
  a <> [] -> b <> [] ->
  ends_with_slash (JoinPath a b) = ends_with_slash b.
Proof.
  intros Hne Hb. rewrite JoinPath_nonempty by assumption.
  destruct (ends_with_slash a) eqn:Ha, (starts_with_slash b) eqn:Hs.
  - pose proof (starts_with_slash_cons b Hs) as E.
    destruct (tl b) as [|d t]; rewrite E.
    + rewrite app_nil_r, Ha. reflexivity.
    + rewrite ends_with_slash_app by discriminate. reflexivity.
  - now apply ends_with_slash_app.
  - now apply ends_with_slash_app.
  - rewrite app_assoc. now apply ends_with_slash_app.
Qed.

Lemma JoinPath_ends_empty (a : Path) :
  a <> [] -> ends_with_slash (JoinPath a []) = true.
Proof.
  intros Hne. rewrite JoinPath_nonempty by assumption.
  cbn [starts_with_slash tl]. rewrite !app_nil_r.
  destruct (ends_with_slash a) eqn:Ha; [exact Ha|].
  apply (ends_with_slash_app a [slash]). discriminate.
Qed.

(** Whatever the case, the result begins like the first path and ends
    like the second, when these are not empty, and it is empty only when
    both are.  With an empty second path it ends with '/'. *)
Theorem JoinPath_shape (a b : Path) :
  (JoinPath a b = [] <-> a = [] /\ b = []) /\
  (a <> [] -> starts_with_slash (JoinPath a b) = starts_with_slash a) /\
  (a <> [] -> b <> [] ->
   ends_with_slash (JoinPath a b) = ends_with_slash b) /\
  (a <> [] -> b = [] -> ends_with_slash (JoinPath a b) = true).
Proof.
  split; [apply JoinPath_nil_iff|].
  split; [apply JoinPath_starts|].
  split; [apply JoinPath_ends|].
  intros Hne ->. now apply JoinPath_ends_empty.
Qed.

Lemma JoinPath_shape_witness :
  starts_with_slash (JoinPath (lit "/a") (lit "b/")) = true /\
  ends_with_slash (JoinPath (lit "/a") (lit "b/")) = true /\
  ends_with_slash (JoinPath (lit "a") (lit "")) = true.
Proof.
  destruct (JoinPath_shape (lit "/a") (lit "b/")) as (_ & H1 & H2 & _).
  destruct (JoinPath_shape (lit "a") (lit "")) as (_ & _ & _ & H3).
  split; [|split].
  - rewrite H1; [reflexivity | discriminate].
  - rewrite H2; [reflexivity | discriminate | discriminate].
  - apply H3; [discriminate | reflexivity].
Defined.

(** [JoinPath] is associative. *)
Theorem JoinPath_assoc (a b c : Path) :
  JoinPath (JoinPath a b) c = JoinPath a (JoinPath b c).
Proof.
  destruct a as [|x a]; [reflexivity|].
  assert (Ha : x :: a <> []) by discriminate.
  destruct b as [|y b].
  - (* nothing in the middle *)
    change (JoinPath [] c) with c.
    rewrite (JoinPath_nonempty _ c Ha), (JoinPath_nonempty _ [] Ha).
    cbn [starts_with_slash tl]. rewrite !app_nil_r.
    destruct (ends_with_slash (x :: a)) eqn:Ea.
    + rewrite JoinPath_nonempty by assumption. now rewrite Ea.
    + rewrite JoinPath_nonempty by (destruct a; discriminate).
      rewrite (ends_with_slash_app (x :: a) [slash]) by discriminate.
      change (ends_with_slash [slash]) with true.
      destruct (starts_with_slash c) eqn:Ec.
      * rewrite (starts_with_slash_cons c Ec) at 2.
        now rewrite <- app_assoc.
      * now rewrite <- app_assoc.
  - assert (Hb : y :: b <> []) by discriminate.
    pose proof (JoinPath_nil_iff (x :: a) (y :: b)) as Hnil.
    pose proof (JoinPath_nil_iff (y :: b) c) as Hnil'.
    pose proof (JoinPath_ends (x :: a) (y :: b)) as Hend.
    pose proof (JoinPath_starts (y :: b) c) as Hstart.
    assert (Hab : JoinPath (x :: a) (y :: b) <> []).
    { intros E. apply Hnil in E. destruct E. congruence. }
    assert (Hbc : JoinPath (y :: b) c <> []).
    { intros E. apply Hnil' in E. destruct E. congruence. }
    rewrite (JoinPath_nonempty _ c Hab).
    rewrite (JoinPath_nonempty _ (JoinPath (y :: b) c) Ha).
    rewrite (Hend Ha Hb), (Hstart Hb).
    rewrite (JoinPath_nonempty _ (y :: b) Ha), (JoinPath_nonempty _ c Hb).
    assert (Htl : forall rest, tl ((y :: b) ++ rest) = tl (y :: b) ++ rest)
      by reflexivity.
    destruct (ends_with_slash (x :: a)), (starts_with_slash (y :: b)),
             (ends_with_slash (y :: b)), (starts_with_slash c);
      rewrite ?Htl, <- ?app_assoc; reflexivity.
Qed.

(** *** JoinPath: segments and separators *)

(** Joining keeps the segments of both paths, in order: none is merged,
    split or lost. *)
Theorem JoinPath_segments (a b : Path) :
  path_segments (JoinPath a b) = path_segments a ++ path_segments b.
Proof.
  destruct a as [|x a]; [reflexivity|].
  rewrite JoinPath_nonempty by discriminate. unfold path_segments.
  destruct (ends_with_slash (x :: a)) eqn:Ea.
  - destruct (ends_with_slash_snoc _ Ea) as (a0 & ->).
    rewrite split_acc_trailing_slash.
    destruct (starts_with_slash b) eqn:Eb.
    + rewrite <- app_assoc. cbn [app]. rewrite split_acc_slash.
      rewrite (starts_with_slash_cons b Eb) at 2. simpl. reflexivity.
    + rewrite <- app_assoc. cbn [app]. apply split_acc_slash.
  - destruct (starts_with_slash b) eqn:Eb.
    + rewrite (starts_with_slash_cons b Eb) at 1.
      rewrite (split_acc_slash (x :: a)).
      rewrite (starts_with_slash_cons b Eb) at 2. simpl. reflexivity.
    + apply (split_acc_slash (x :: a)).
Qed.

Lemma has_double_slash_junction (a b : Path) :
  has_double_slash (a ++ b) =
  has_double_slash a || (ends_with_slash a && starts_with_slash b)
  || has_double_slash b.
Proof.
  induction a as [|c a IH]; [reflexivity|].
  destruct a as [|c2 a].
  - cbn. unfold ends_with_slash. cbn.
    destruct (Ascii.eqb c slash), (starts_with_slash b); reflexivity.
  - change (has_double_slash ((c :: c2 :: a) ++ b))
      with (Ascii.eqb c slash && starts_with_slash (c2 :: a)
            || has_double_slash ((c2 :: a) ++ b)).
    change (has_double_slash (c :: c2 :: a))
      with (Ascii.eqb c slash && starts_with_slash (c2 :: a)
            || has_double_slash (c2 :: a)).
    change (ends_with_slash (c :: c2 :: a)) with (ends_with_slash (c2 :: a)).
    rewrite IH.
    generalize (Ascii.eqb c slash && starts_with_slash (c2 :: a)),
               (has_double_slash (c2 :: a)),
               (ends_with_slash (c2 :: a) && starts_with_slash b),
               (has_double_slash b).
    intros [] [] [] []; reflexivity.
Qed.

(** [JoinPath] never makes a doubled '/': the result has one only where
    one of the two paths has. *)
Theorem JoinPath_double_slash (a b : Path) :
  has_double_slash (JoinPath a b) = has_double_slash a || has_double_slash b.
Proof.
  destruct a as [|x a]; [reflexivity|].
  rewrite JoinPath_nonempty by discriminate.
  generalize (x :: a). clear x a. intros a.
  destruct (ends_with_slash a) eqn:Ea, (starts_with_slash b) eqn:Eb;
    rewrite has_double_slash_junction, Ea.
  - assert (Hb : has_double_slash b =
                 starts_with_slash (tl b) || has_double_slash (tl b)).
    { rewrite (starts_with_slash_cons b Eb) at 1. cbn [has_double_slash].
      now rewrite Ascii.eqb_refl. }
    rewrite Hb.
    generalize (has_double_slash a), (starts_with_slash (tl b)),
               (has_double_slash (tl b)).
    intros [] [] []; reflexivity.
  - rewrite Eb. generalize (has_double_slash a), (has_double_slash b).
    intros [] []; reflexivity.
  - generalize (has_double_slash a), (has_double_slash b).
    intros [] []; reflexivity.
  - assert (Hs : has_double_slash ([slash] ++ b) = has_double_slash b).
    { cbn [app has_double_slash]. now rewrite Eb, andb_false_r. }
    rewrite Hs.
    generalize (has_double_slash a), (has_double_slash b).
    intros [] []; reflexivity.
Qed.

(** *** JoinPath, then NormalizePath *)

Lemma retained_after_slash (p q : Path) :
  ~ In NUL p ->
  starts_with_slash q = true ->
  retained (p ++ q) =
  fold_left retain (path_segments (c_str q)) (retained p).
Proof.
  intros Hz Hq. rewrite (starts_with_slash_cons q Hq) at 1.
  rewrite retained_slash by assumption.
  rewrite (starts_with_slash_cons q Hq) at 2. reflexivity.
Qed.

Lemma retained_JoinPath (a b : Path) :
  a <> [] -> retained (JoinPath a b) = retained (a ++ slash :: b).
Proof.
  intros Hne. rewrite JoinPath_nonempty by assumption.
  destruct (NUL_dec a) as [Hz|Hz].
  { rewrite (retained_app_has_NUL a (slash :: b) Hz).
    destruct (ends_with_slash a), (starts_with_slash b);
      now rewrite retained_app_has_NUL. }
  rewrite (retained_slash a b Hz).
  destruct (ends_with_slash a) eqn:Ea.
  - destruct (ends_with_slash_snoc a Ea) as (a0 & ->).
    assert (Hz0 : ~ In NUL a0).
    { intros H. apply Hz. apply in_or_app. now left. }
    assert (Ha0 : retained (a0 ++ [slash]) = retained a0)
      by (now rewrite retained_slash).
    rewrite Ha0, <- !app_assoc. cbn [app].
    destruct (starts_with_slash b) eqn:Eb.
    + rewrite retained_slash by assumption.
      rewrite (starts_with_slash_cons b Eb) at 2. reflexivity.
    + now rewrite retained_slash.
  - destruct (starts_with_slash b) eqn:Eb.
    + now apply retained_after_slash.
    + cbn [app]. now apply retained_slash.
Qed.

Lemma spec_JoinPath (a b : Path) :
  a <> [] ->
  NormalizePath_spec (JoinPath a b) = NormalizePath_spec (a ++ slash :: b).
Proof.
  intros Hne. rewrite !spec_render.
  rewrite retained_JoinPath by assumption.
  rewrite (JoinPath_starts a b Hne). now rewrite starts_with_slash_app.
Qed.

Lemma length_c_str_JoinPath (a b : Path) :
  a <> [] ->
  (List.length (c_str (JoinPath a b)) <=
   List.length (c_str (a ++ slash :: b)))%nat.
Proof.
  intros Hne. rewrite JoinPath_nonempty by assumption.
  destruct (ends_with_slash a), (starts_with_slash b) eqn:Eb.
  - apply length_c_str_app_le.
    rewrite (starts_with_slash_cons b Eb) at 2.
    change (c_str (slash :: slash :: tl b))
      with (slash :: slash :: c_str (tl b)).
    simpl. lia.
  - apply length_c_str_app_le, (length_c_str_cons slash).
  - apply length_c_str_app_le, (length_c_str_cons slash).
  - cbn [app]. lia.
Qed.

Lemma fits_int_JoinPath (a b : Path) :
  a <> [] -> fits_int (a ++ slash :: b) -> fits_int (JoinPath a b).
Proof.
  intros Hne. unfold fits_int, size.
  pose proof (length_c_str_JoinPath a b Hne). lia.
Qed.

(** After normalizing, the case [JoinPath] took does not show: the result
    is that of the two paths written with a '/' between them, when that
    path is one the scan gets through. *)
Theorem NormalizePath_JoinPath (a b : Path) :
  a <> [] -> fits_int (a ++ slash :: b) ->
  exists out : Path,
    NormalizePath (JoinPath a b) = Some out /\
    NormalizePath (a ++ slash :: b) = Some out.
Proof.
  intros Hne Hfit. exists (NormalizePath_spec (a ++ slash :: b)).
  pose proof (fits_int_JoinPath a b Hne Hfit) as Hj.
  rewrite !NormalizePath_refines by assumption.
  now rewrite spec_JoinPath.
Qed.

Lemma NormalizePath_JoinPath_witness :
  exists out : Path,
    NormalizePath (JoinPath (lit "a/") (lit "/../b")) = Some out /\
    NormalizePath (lit "a/" ++ slash :: lit "/../b") = Some out.
Proof. apply NormalizePath_JoinPath; [discriminate | fits_literal]. Defined.

Lemma retained_NormalizePath (a : Path) :
  retained (NormalizePath_spec a) = retained a.
Proof.
  pose proof (retained_plain a) as Hplain.
  pose proof (Forall_plain_run _ Hplain) as Hrun.
  rewrite spec_render. unfold retained at 1.
  rewrite c_str_id by now apply render_no_NUL.
  rewrite path_segments_render by assumption.
  now rewrite fold_retain_all_plain.
Qed.

Lemma spec_JoinPath_normalized (a b : Path) :
  a <> [] -> ~ In NUL a ->
  (NormalizePath_spec a = [] -> starts_with_slash b = false) ->
  NormalizePath_spec (JoinPath (NormalizePath_spec a) b) =
  NormalizePath_spec (JoinPath a b).
Proof.
  intros Hne Hz Hrel.
  assert (Hab : NormalizePath_spec (JoinPath a b) =
                render (starts_with_slash a)
                  (fold_left retain (path_segments (c_str b)) (retained a))).
  { rewrite spec_render, retained_JoinPath by assumption.
    rewrite retained_slash by assumption.
    now rewrite (JoinPath_starts a b Hne). }
  rewrite Hab.
  destruct (NormalizePath_spec a) as [|c n] eqn:En.
  - change (JoinPath [] b) with b.
    destruct (spec_empty a En) as [E1 E2].
    rewrite spec_render, (Hrel eq_refl), E1, E2. reflexivity.
  - assert (Hn : c :: n <> []) by discriminate.
    rewrite <- En in *.
    assert (Hzn : ~ In NUL (NormalizePath_spec a)) by apply spec_no_NUL.
    rewrite spec_render, retained_JoinPath by assumption.
    rewrite retained_slash by assumption.
    rewrite retained_NormalizePath.
    rewrite (JoinPath_starts (NormalizePath_spec a) b Hn). f_equal.
    rewrite spec_render. apply starts_with_slash_render.
    apply Forall_plain_run, retained_plain.
Qed.

(** Normalizing the first path before joining gives the same normalized
    result, as long as the first path holds no NUL, the two paths with a
    '/' between them are one the scan gets through, and the join stays
    relative to the first path: when it normalizes to the empty string,
    the second path must not begin with '/'. *)
Theorem NormalizePath_JoinPath_normalized (a b : Path) :
  a <> [] -> ~ In NUL a ->
  fits_int (a ++ slash :: b) ->
  (NormalizePath a = Some [] -> starts_with_slash b = false) ->
  exists n out : Path,
    NormalizePath a = Some n /\
    NormalizePath (JoinPath n b) = Some out /\
    NormalizePath (JoinPath a b) = Some out.
Proof.
  intros Hne Hz Hfit Hrel.
  pose proof (fits_int_app _ _ Hfit) as Ha.
  pose proof (fits_int_JoinPath a b Hne Hfit) as Hab.
  pose proof (NormalizePath_refines a Ha) as En.
  exists (NormalizePath_spec a), (NormalizePath_spec (JoinPath a b)).
  split; [exact En|]. split; [|now apply NormalizePath_refines].
  assert (Hrel' : NormalizePath_spec a = [] -> starts_with_slash b = false).
  { intros E. apply Hrel. now rewrite En, E. }
  rewrite <- (spec_JoinPath_normalized a b Hne Hz Hrel').
  apply NormalizePath_refines.
  (* the join with the normalized first path is no longer *)
  assert (Hlen : size (c_str (a ++ slash :: b)) =
                 size a + 1 + size (c_str b)).
  { rewrite c_str_app_no_NUL by assumption.
    change (c_str (slash :: b)) with (slash :: c_str b).
    unfold size. rewrite length_app. cbn [List.length]. lia. }
  destruct (NormalizePath_spec a) as [|c n] eqn:E.
  - change (JoinPath [] b) with b. unfold fits_int, size in *. lia.
  - rewrite <- E in *.
    apply fits_int_JoinPath; [rewrite E; discriminate|].
    unfold fits_int in *.
    rewrite c_str_app_no_NUL by apply spec_no_NUL.
    change (c_str (slash :: b)) with (slash :: c_str b).
    pose proof (spec_not_longer a).
    unfold size in *. rewrite length_app. cbn [List.length]. lia.
Qed.

Lemma NormalizePath_JoinPath_normalized_witness :
  exists n out : Path,
    NormalizePath (lit "a/./b/..") = Some n /\
    NormalizePath (JoinPath n (lit "../c")) = Some out /\
    NormalizePath (JoinPath (lit "a/./b/..") (lit "../c")) = Some out.
Proof.
  apply NormalizePath_JoinPath_normalized.
  - discriminate.
  - cbn. intuition discriminate.
  - fits_literal.
  - discriminate.
Defined.

(** ** ReadFrom and WriteTo *)

(** [static_cast<int>(x)]: the low 32 bits, read as a signed number. *)
Definition to_int (x : Z) : Z := (x + 2 ^ 31) mod 2 ^ 32 - 2 ^ 31.

(** [sizeof buf] for [char buf[4096]]. *)
Definition sizeof_buf : Z := 4096.

(** The length asked of the read primitive:
    [max_size > 0 ? std::min(max_size, static_cast<int>(sizeof buf))
                  : sizeof buf]. *)
Definition request (max_size : Z) : Z :=
  if max_size >? 0 then Z.min max_size (to_int sizeof_buf) else sizeof_buf.

Section StreamIO.

(** The state of everything outside the program. *)
Variable World : Type.

(** [errno], as the last call left it. *)
Variable errno : World -> Z.

(** The two error numbers of <errno.h> that [ReadFrom] retries on. *)
Variables EINTR EAGAIN : Z.

(** [read_func(buf, len)]: from the world and the bytes of [buf] to the
    [int] it returns, the bytes of [buf] afterwards, and the new world. *)
Variable read_func : World -> Path -> Z -> Z * Path * World.

(** [write_func(data, size)]: the [int] it returns, and the new world. *)
Variable write_func : World -> Path -> Z -> Z * World.

(** What [ReadFrom] holds between two rounds of its loop. *)
Record read_state : Type := ReadState {
  rs_world : World;
  rs_buf : Path;
  rs_content : Path;
  rs_max_size : Z
}.

Inductive outcome : Type :=
| Returned (result : bool) (content : Path) (w : World)
    (* the function returned [result], leaving [content] in [*content] *)
| Running (st : read_state)
    (* the loop is about to call [read_func] again *)
| Undefined.
    (* [content->append(buf, r)] was asked for bytes outside [buf] *)

(** One round: the call in the loop condition, then the body. *)
Definition read_step (st : read_state) : outcome :=
  let '(r, buf, w) :=
    read_func (rs_world st) (rs_buf st) (request (rs_max_size st)) in
  if r =? 0 then Returned true (rs_content st) w
  else if r =? -1 then
    if (errno w =? EINTR) || (errno w =? EAGAIN)
    then Running (ReadState w buf (rs_content st) (rs_max_size st))
    else Returned false (rs_content st) w
  else if (r <? 0) || (r >? sizeof_buf) then Undefined
  else
    let content := rs_content st ++ firstn (Z.to_nat r) buf in
    if rs_max_size st >? 0 then
      if rs_max_size st >? r
      then Running (ReadState w buf content (rs_max_size st - r))
      else Returned true content w
    else Running (ReadState w buf content (rs_max_size st)).

Fixpoint read_loop (fuel : nat) (st : read_state) : outcome :=
  match fuel with
  | O => Running st
  | S fuel' =>
      match read_step st with
      | Running st' => read_loop fuel' st'
      | done => done
      end
  end.

(** [ReadFrom(read_func, content, max_size)], run for at most [fuel] calls
    of [read_func]; [buf] holds the bytes the local array starts with. *)
Definition ReadFrom (fuel : nat) (w : World) (buf : Path) (content : Path)
  (max_size : Z) : outcome :=
  let content : Path := [] in
  read_loop fuel (ReadState w buf content max_size).

(** [WriteTo(write_func, data, size)] *)
Definition WriteTo (w : World) (data : Path) (size : Z) : bool * World :=
  let '(r, w') := write_func w data size in
  if r =? -1 then (false, w')
  else (r =? to_int size, w').

(** *** The loop, one more round at a time *)

Lemma read_loop_snoc (fuel : nat) :
  forall st : read_state,
    read_loop (S fuel) st =
    match read_loop fuel st with
    | Running st' => read_step st'
    | done => done
    end.
Proof.
  induction fuel as [|fuel IH]; intros st.
  - cbn [read_loop]. destruct (read_step st); reflexivity.
  - change (read_loop (S (S fuel)) st)
      with (match read_step st with
            | Running st' => read_loop (S fuel) st'
            | done => done
            end).
    cbn [read_loop] in *. destruct (read_step st); auto.
Qed.

Lemma read_loop_returned (fuel fuel' : nat) (st : read_state)
  (result : bool) (content : Path) (w : World) :
  (fuel <= fuel')%nat ->
  read_loop fuel st = Returned result content w ->
  read_loop fuel' st = Returned result content w.
Proof.
  induction 1 as [|fuel' _ IH]; intros H; [assumption|].
  rewrite read_loop_snoc, IH by assumption. reflexivity.
Qed.

Lemma request_range (max_size : Z) :
  0 < request max_size <= sizeof_buf /\
  (0 < max_size -> request max_size = Z.min sizeof_buf max_size).
Proof.
  unfold request. change (to_int sizeof_buf) with sizeof_buf.
  unfold sizeof_buf.
  destruct (Z.gtb_spec max_size 0); lia.
Qed.

(** The bytes appended and the allowance left never exceed the allowance
    the call started with. *)
Definition within (N : Z) (o : outcome) : Prop :=
  match o with
  | Returned _ content _ => size content <= N
  | Running st => size (rs_content st) + rs_max_size st <= N /\
                  0 < rs_max_size st
  | Undefined => True
  end.

Section Bounded.

(** The read primitive returns no more than it was asked for. *)
Hypothesis read_func_len :
  forall (w : World) (buf : Path) (len : Z),
    0 < len -> fst (fst (read_func w buf len)) <= len.

Lemma read_step_within (N : Z) (st : read_state) :
  within N (Running st) -> within N (read_step st).
Proof.
  intros [Hsum Hpos]. unfold read_step.
  pose proof (read_func_len (rs_world st) (rs_buf st)
                (request (rs_max_size st))) as Hlen.
  destruct (request_range (rs_max_size st)) as [Hreq1 Hreq2].
  specialize (Hreq2 Hpos). specialize (Hlen (proj1 Hreq1)).
  destruct (read_func (rs_world st) (rs_buf st) (request (rs_max_size st)))
    as [[r buf] w].
  cbn [fst] in Hlen.
  destruct (Z.eqb_spec r 0); [cbn; lia|].
  destruct (Z.eqb_spec r (-1)).
  { destruct ((errno w =? EINTR) || (errno w =? EAGAIN)); cbn; lia. }
  destruct (Z.ltb_spec r 0); [exact I|].
  destruct (Z.gtb_spec r sizeof_buf); cbn [orb]; [exact I|].
  assert (Hsz : size (rs_content st ++ firstn (Z.to_nat r) buf)
                <= size (rs_content st) + r).
  { unfold size. rewrite length_app, length_firstn. lia. }
  destruct (Z.gtb_spec (rs_max_size st) 0); [|lia].
  destruct (Z.gtb_spec (rs_max_size st) r); cbn [within rs_content rs_max_size];
    lia.
Qed.

Lemma read_loop_within (N : Z) (fuel : nat) :
  forall st : read_state,
    within N (Running st) -> within N (read_loop fuel st).
Proof.
  induction fuel as [|fuel IH]; intros st H; [exact H|].
  rewrite read_loop_snoc. specialize (IH st H).
  destruct (read_loop fuel st); auto using read_step_within.
Qed.

End Bounded.

Section Defined_outcome.

(** The read primitive returns -1, or a count up to what it was asked. *)
Hypothesis read_func_range :
  forall (w : World) (buf : Path) (len : Z),
    0 < len -> -1 <= fst (fst (read_func w buf len)) <= len.

Lemma read_step_defined (st : read_state) : read_step st <> Undefined.
Proof.
  unfold read_step.
  destruct (request_range (rs_max_size st)) as [Hreq _].
  pose proof (read_func_range (rs_world st) (rs_buf st)
                (request (rs_max_size st)) (proj1 Hreq)) as Hr.
  destruct (read_func (rs_world st) (rs_buf st) (request (rs_max_size st)))
    as [[r buf] w].
  cbn [fst] in Hr.
  destruct (Z.eqb_spec r 0); [discriminate|].
  destruct (Z.eqb_spec r (-1)).
  { destruct ((errno w =? EINTR) || (errno w =? EAGAIN)); discriminate. }
  destruct (Z.ltb_spec r 0); [lia|].
  destruct (Z.gtb_spec r sizeof_buf); [lia|]. cbn [orb].
  destruct (rs_max_size st >? 0); [|discriminate].
  destruct (rs_max_size st >? r); discriminate.
Qed.

Lemma read_loop_defined (fuel : nat) (st : read_state) :
  read_loop fuel st <> Undefined.
Proof.
  induction fuel as [|fuel IH]; [discriminate|].
  rewrite read_loop_snoc.
  destruct (read_loop fuel st); [discriminate | | congruence].
  apply read_step_defined.
Qed.

End Defined_outcome.

(** The allowance left is what the call started with, less the bytes
    appended. *)
Definition accounted (N : Z) (o : outcome) : Prop :=
  match o with
  | Returned true content _ => size content <= N
  | Returned false content _ => size content < N
  | Running st =>
      size (rs_content st) + rs_max_size st = N /\
      0 < rs_max_size st /\
      request (rs_max_size st) = Z.min 4096 (N - size (rs_content st))
  | Undefined => True
  end.

Section Accounted.

(** The read primitive returns no more than it was asked for, nor than
    the buffer holds. *)
Hypothesis read_func_chunk :
  forall (w : World) (buf : Path) (len : Z),
    0 < len ->
    fst (fst (read_func w buf len)) <= len /\
    fst (fst (read_func w buf len)) <= size (snd (fst (read_func w buf len))).

Lemma accounted_running (N : Z) (w : World) (buf content : Path)
  (max_size : Z) :
  size content + max_size = N -> 0 < max_size ->
  accounted N (Running (ReadState w buf content max_size)).
Proof.
  intros Hsum Hpos. cbn [accounted rs_content rs_max_size].
  split; [exact Hsum|]. split; [exact Hpos|].
  destruct (request_range max_size) as [_ Hreq].
  rewrite (Hreq Hpos). unfold sizeof_buf. f_equal. lia.
Qed.

Lemma read_step_accounted (N : Z) (st : read_state) :
  accounted N (Running st) -> accounted N (read_step st).
Proof.
  intros (Hsum & Hpos & _). unfold read_step.
  destruct (request_range (rs_max_size st)) as [Hreq1 Hreq2].
  specialize (Hreq2 Hpos).
  pose proof (read_func_chunk (rs_world st) (rs_buf st)
                (request (rs_max_size st)) (proj1 Hreq1)) as [Hlen Hbuf].
  destruct (read_func (rs_world st) (rs_buf st) (request (rs_max_size st)))
    as [[r buf] w].
  cbn [fst snd] in Hlen, Hbuf.
  destruct (Z.eqb_spec r 0); [cbn; lia|].
  destruct (Z.eqb_spec r (-1)).
  { destruct ((errno w =? EINTR) || (errno w =? EAGAIN));
      [now apply accounted_running | cbn; lia]. }
  destruct (Z.ltb_spec r 0); [exact I|].
  destruct (Z.gtb_spec r sizeof_buf); cbn [orb]; [exact I|].
  assert (Hsz : size (rs_content st ++ firstn (Z.to_nat r) buf)
                = size (rs_content st) + r).
  { unfold size in *. rewrite length_app, length_firstn. lia. }
  destruct (Z.gtb_spec (rs_max_size st) 0); [|lia].
  destruct (Z.gtb_spec (rs_max_size st) r).
  - apply accounted_running; lia.
  - cbn [accounted]. lia.
Qed.

Lemma read_loop_accounted (N : Z) (fuel : nat) :
  forall st : read_state,
    accounted N (Running st) -> accounted N (read_loop fuel st).
Proof.
  induction fuel as [|fuel IH]; intros st H; [exact H|].
  rewrite read_loop_snoc. specialize (IH st H).
  destruct (read_loop fuel st); auto using read_step_accounted.
Qed.

End Accounted.

(** After [k] rounds of a primitive that always delivers, at least [k]
    bytes are appended, or the allowance [N] is used up. *)
Definition filling (N : Z) (k : nat) (o : outcome) : Prop :=
  match o with
  | Returned true content _ => size content = N
  | Running st =>
      size (rs_content st) + rs_max_size st = N /\
      0 < rs_max_size st /\
      Z.of_nat k <= size (rs_content st)
  | _ => False
  end.

Section Filling.

(** The read primitive always delivers: at least one byte, no more than
    it was asked for, nor than the buffer holds. *)
Hypothesis read_func_delivers :
  forall (w : World) (buf : Path) (len : Z),
    0 < len ->
    0 < fst (fst (read_func w buf len)) <= len /\
    fst (fst (read_func w buf len)) <= size (snd (fst (read_func w buf len))).

Lemma read_step_filling (N : Z) (k : nat) (st : read_state) :
  filling N k (Running st) -> filling N (S k) (read_step st).
Proof.
  intros (Hsum & Hpos & Hk). unfold read_step.
  destruct (request_range (rs_max_size st)) as [Hreq1 Hreq2].
  specialize (Hreq2 Hpos).
  pose proof (read_func_delivers (rs_world st) (rs_buf st)
                (request (rs_max_size st)) (proj1 Hreq1)) as [Hlen Hbuf].
  destruct (read_func (rs_world st) (rs_buf st) (request (rs_max_size st)))
    as [[r buf] w].
  cbn [fst snd] in Hlen, Hbuf.
  destruct (Z.eqb_spec r 0); [lia|].
  destruct (Z.eqb_spec r (-1)); [lia|].
  destruct (Z.ltb_spec r 0); [lia|].
  destruct (Z.gtb_spec r sizeof_buf); [unfold sizeof_buf in *; lia|].
  cbn [orb].
  assert (Hsz : size (rs_content st ++ firstn (Z.to_nat r) buf)
                = size (rs_content st) + r).
  { unfold size in *. rewrite length_app, length_firstn. lia. }
  destruct (Z.gtb_spec (rs_max_size st) 0); [|lia].
  destruct (Z.gtb_spec (rs_max_size st) r);
    cbn [filling rs_content rs_max_size]; lia.
Qed.

Lemma read_loop_filling (N : Z) (fuel : nat) :
  forall st : read_state,
    filling N 0 (Running st) ->
    filling N fuel (read_loop fuel st) \/
    exists (content : Path) (w : World),
      read_loop fuel st = Returned true content w /\ size content = N.
Proof.
  induction fuel as [|fuel IH]; intros st H; [left; exact H|].
  rewrite read_loop_snoc. specialize (IH st H).
  destruct IH as [IH | (content & w & -> & Hc)].
  - destruct (read_loop fuel st) as [[|] content w|st'|];
      cbn [filling] in IH; try contradiction.
    + right. now exists content, w.
    + left. now apply read_step_filling.
  - right. now exists content, w.
Qed.

End Filling.

Lemma read_loop_false (fuel : nat) :
  forall (st0 : read_state) (content : Path) (w : World),
    read_loop fuel st0 = Returned false content w ->
    exists (k : nat) (st : read_state) (buf : Path),
      (k < fuel)%nat /\
      read_loop k st0 = Running st /\
      read_func (rs_world st) (rs_buf st) (request (rs_max_size st)) =
        (-1, buf, w) /\
      errno w <> EINTR /\ errno w <> EAGAIN /\
      content = rs_content st.
Proof.
  induction fuel as [|fuel IH]; intros st0 content w H; [discriminate H|].
  rewrite read_loop_snoc in H.
  destruct (read_loop fuel st0) as [result c w0|st|] eqn:E.
  - inversion H; subst.
    destruct (IH st0 content w E) as (k & st & buf & Hk & Hrest).
    exists k, st, buf. split; [lia | exact Hrest].
  - exists fuel, st. unfold read_step in H.
    destruct (read_func (rs_world st) (rs_buf st) (request (rs_max_size st)))
      as [[r buf] w1].
    destruct (Z.eqb_spec r 0); [discriminate H|].
    destruct (Z.eqb_spec r (-1)) as [->|].
    + destruct (Z.eqb_spec (errno w1) EINTR); [discriminate H|].
      destruct (Z.eqb_spec (errno w1) EAGAIN); [discriminate H|].
      cbn [orb] in H. inversion H; subst.
      exists buf. repeat split; auto.
    + destruct ((r <? 0) || (r >? sizeof_buf)); [discriminate H|].
      destruct (rs_max_size st >? 0); [|discriminate H].
      destruct (rs_max_size st >? r); discriminate H.
  - discriminate H.
Qed.

(** C5. [ReadFrom] clears the buffer before it reads.  With an allowance
    [N > 0] and a read primitive that returns no more than it is asked
    for, the bytes appended never exceed [N], each request being the
    smaller of 4096 and the allowance left.  It returns [true] as soon as
    the primitive returns 0 or fills the allowance left, and [false] only
    for an error that is not retried.  When the primitive returns -1 or a
    count up to the request, every [append] stays inside [buf].  A round
    that goes on has appended the bytes read and, under an allowance,
    lowered it by their number; so the allowance left is [N] less the
    bytes appended, and that is what the next request is cut to.  Fed by a
    primitive that always delivers, it returns [true] within [N] rounds,
    with exactly [N] bytes appended. *)
Theorem ReadFrom_bounded :
  (forall (fuel : nat) (w : World) (buf content : Path) (max_size : Z),
     ReadFrom fuel w buf content max_size = ReadFrom fuel w buf [] max_size
     /\ ReadFrom 0 w buf content max_size =
        Running (ReadState w buf [] max_size)) /\
  (forall N : Z,
     0 < N ->
     (forall (w : World) (buf : Path) (len : Z),
        0 < len -> fst (fst (read_func w buf len)) <= len) ->
     forall (fuel : nat) (w : World) (buf content : Path),
       within N (ReadFrom fuel w buf content N)) /\
  (forall max_size : Z,
     0 < max_size -> request max_size = Z.min 4096 max_size) /\
  (forall (fuel : nat) (w : World) (buf content : Path) (max_size : Z)
          (st : read_state) (r : Z) (buf' : Path) (w' : World),
     ReadFrom fuel w buf content max_size = Running st ->
     read_func (rs_world st) (rs_buf st) (request (rs_max_size st)) =
       (r, buf', w') ->
     (r = 0 ->
      forall fuel' : nat, (fuel < fuel')%nat ->
        ReadFrom fuel' w buf content max_size =
        Returned true (rs_content st) w') /\
     (0 < r <= 4096 -> 0 < rs_max_size st <= r ->
      forall fuel' : nat, (fuel < fuel')%nat ->
        ReadFrom fuel' w buf content max_size =
        Returned true (rs_content st ++ firstn (Z.to_nat r) buf') w')) /\
  (forall (fuel : nat) (w : World) (buf content : Path) (max_size : Z)
          (content' : Path) (w' : World),
     ReadFrom fuel w buf content max_size = Returned false content' w' ->
     exists (k : nat) (st : read_state) (buf' : Path),
       (k < fuel)%nat /\
       ReadFrom k w buf content max_size = Running st /\
       read_func (rs_world st) (rs_buf st) (request (rs_max_size st)) =
         (-1, buf', w') /\
       errno w' <> EINTR /\ errno w' <> EAGAIN /\
       content' = rs_content st) /\
  ((forall (w : World) (buf : Path) (len : Z),
      0 < len -> -1 <= fst (fst (read_func w buf len)) <= len) ->
   forall (fuel : nat) (w : World) (buf content : Path) (max_size : Z),
     ReadFrom fuel w buf content max_size <> Undefined) /\
  (forall (fuel : nat) (w : World) (buf content : Path) (max_size : Z)
          (st : read_state) (r : Z) (buf' : Path) (w' : World),
     ReadFrom fuel w buf content max_size = Running st ->
     read_func (rs_world st) (rs_buf st) (request (rs_max_size st)) =
       (r, buf', w') ->
     0 < r <= 4096 ->
     (r < rs_max_size st ->
      ReadFrom (S fuel) w buf content max_size =
      Running (ReadState w' buf'
                 (rs_content st ++ firstn (Z.to_nat r) buf')
                 (rs_max_size st - r))) /\
     (rs_max_size st <= 0 ->
      ReadFrom (S fuel) w buf content max_size =
      Running (ReadState w' buf'
                 (rs_content st ++ firstn (Z.to_nat r) buf')
                 (rs_max_size st)))) /\
  (forall N : Z,
     0 < N ->
     (forall (w : World) (buf : Path) (len : Z),
        0 < len ->
        fst (fst (read_func w buf len)) <= len /\
        fst (fst (read_func w buf len)) <=
        size (snd (fst (read_func w buf len)))) ->
     forall (fuel : nat) (w : World) (buf content : Path),
       accounted N (ReadFrom fuel w buf content N)) /\
  (forall N : Z,
     0 < N ->
     (forall (w : World) (buf : Path) (len : Z),
        0 < len ->
        0 < fst (fst (read_func w buf len)) <= len /\
        fst (fst (read_func w buf len)) <=
        size (snd (fst (read_func w buf len)))) ->
     forall (fuel : nat) (w : World) (buf content : Path),
       N <= Z.of_nat fuel ->
       exists (content' : Path) (w' : World),
         ReadFrom fuel w buf content N = Returned true content' w' /\
         size content' = N).
Proof.
  split; [intros; split; reflexivity|].
  split.
  { intros N HN Hlen fuel w buf content. unfold ReadFrom.
    apply read_loop_within; [exact Hlen|].
    cbn. lia. }
  split; [intros m Hm; now apply request_range|].
  split.
  { intros fuel w buf content max_size st r buf' w' Hrun Hread.
    unfold ReadFrom in *.
    assert (Hnext : forall o, read_step st = o ->
              read_loop (S fuel) (ReadState w buf [] max_size) = o).
    { intros o Ho. now rewrite read_loop_snoc, Hrun. }
    split.
    - intros -> fuel' Hfuel.
      apply (read_loop_returned (S fuel)); [lia|].
      apply Hnext. unfold read_step. rewrite Hread. reflexivity.
    - intros Hr Hmax fuel' Hfuel.
      apply (read_loop_returned (S fuel)); [lia|].
      apply Hnext. unfold read_step. rewrite Hread.
      destruct (Z.eqb_spec r 0); [lia|].
      destruct (Z.eqb_spec r (-1)); [lia|].
      destruct (Z.ltb_spec r 0); [lia|].
      destruct (Z.gtb_spec r sizeof_buf); [unfold sizeof_buf in *; lia|].
      cbn [orb].
      destruct (Z.gtb_spec (rs_max_size st) 0); [|lia].
      destruct (Z.gtb_spec (rs_max_size st) r); [lia|].
      reflexivity. }
  split.
  { intros fuel w buf content max_size content' w' H.
    now apply read_loop_false. }
  split.
  { intros Hrange fuel w buf content max_size.
    now apply read_loop_defined. }
  split.
  { intros fuel w buf content max_size st r buf' w' Hrun Hread Hr.
    unfold ReadFrom in *.
    assert (Hnext : forall o, read_step st = o ->
              read_loop (S fuel) (ReadState w buf [] max_size) = o).
    { intros o Ho. now rewrite read_loop_snoc, Hrun. }
    assert (Hstep : read_step st =
              let content' := rs_content st ++ firstn (Z.to_nat r) buf' in
              if rs_max_size st >? 0 then
                if rs_max_size st >? r
                then Running (ReadState w' buf' content' (rs_max_size st - r))
                else Returned true content' w'
              else Running (ReadState w' buf' content' (rs_max_size st))).
    { unfold read_step. rewrite Hread.
      destruct (Z.eqb_spec r 0); [lia|].
      destruct (Z.eqb_spec r (-1)); [lia|].
      destruct (Z.ltb_spec r 0); [lia|].
      destruct (Z.gtb_spec r sizeof_buf); [unfold sizeof_buf in *; lia|].
      reflexivity. }
    cbv zeta in Hstep.
    split.
    - intros Hlt. apply Hnext. rewrite Hstep.
      destruct (Z.gtb_spec (rs_max_size st) 0); [|lia].
      destruct (Z.gtb_spec (rs_max_size st) r); [reflexivity | lia].
    - intros Hle. apply Hnext. rewrite Hstep.
      destruct (Z.gtb_spec (rs_max_size st) 0); [lia | reflexivity]. }
  split.
  { intros N HN Hchunk fuel w buf content. unfold ReadFrom.
    apply read_loop_accounted; [exact Hchunk|].
    apply accounted_running; [cbn; lia | exact HN]. }
  intros N HN Hdel fuel w buf content Hfuel. unfold ReadFrom.
  destruct (read_loop_filling Hdel N fuel (ReadState w buf [] N))
    as [H | H]; [cbn; lia | | exact H].
  destruct (read_loop fuel (ReadState w buf [] N)) as [[|] c w'|st|];
    cbn [filling] in H; try contradiction.
  - now exists c, w'.
  - unfold size in H. lia.
Qed.

(** C6. When the read primitive returns -1 with [errno] at [EINTR] or
    [EAGAIN], [ReadFrom] calls it again with the same request and has
    appended nothing; with any other [errno] it returns [false] at once,
    the buffer holding what had been appended until then. *)
Theorem ReadFrom_error (fuel : nat) (w : World) (buf content : Path)
  (max_size : Z) (st : read_state) (buf' : Path) (w' : World) :
  ReadFrom fuel w buf content max_size = Running st ->
  read_func (rs_world st) (rs_buf st) (request (rs_max_size st)) =
    (-1, buf', w') ->
  (errno w' = EINTR \/ errno w' = EAGAIN ->
   ReadFrom (S fuel) w buf content max_size =
   Running (ReadState w' buf' (rs_content st) (rs_max_size st))) /\
  (errno w' <> EINTR -> errno w' <> EAGAIN ->
   forall fuel' : nat, (fuel < fuel')%nat ->
     ReadFrom fuel' w buf content max_size =
     Returned false (rs_content st) w').
Proof.
  intros Hrun Hread. unfold ReadFrom in *.
  assert (Hnext : forall o, read_step st = o ->
            read_loop (S fuel) (ReadState w buf [] max_size) = o).
  { intros o Ho. now rewrite read_loop_snoc, Hrun. }
  split.
  - intros Herr. apply Hnext. unfold read_step. rewrite Hread. cbn.
    destruct Herr as [-> | ->]; rewrite Z.eqb_refl;
      [reflexivity | now rewrite orb_true_r].
  - intros H1 H2 fuel' Hfuel.
    apply (read_loop_returned (S fuel)); [lia|].
    apply Hnext. unfold read_step. rewrite Hread. cbn.
    apply Z.eqb_neq in H1, H2. now rewrite H1, H2.
Qed.

(** For a size that fits an [int], [WriteTo] makes its one call of the
    write primitive with [data] and [size], and returns [true] exactly
    when that call returns [size]. *)
Lemma WriteTo_int_size (w : World) (data : Path) (size : Z) :
  0 <= size < 2 ^ 31 ->
  snd (WriteTo w data size) = snd (write_func w data size) /\
  (fst (WriteTo w data size) = true <->
   fst (write_func w data size) = size).
Proof.
  intros Hsize. unfold WriteTo.
  destruct (write_func w data size) as [r w1]. cbn [fst snd].
  assert (Hint : to_int size = size).
  { unfold to_int. rewrite Z.mod_small; lia. }
  rewrite Hint.
  destruct (Z.eqb_spec r (-1)); cbn [fst snd].
  - split; [reflexivity|]. split; [discriminate | lia].
  - split; [reflexivity|]. apply Z.eqb_eq.
Qed.

(** *** Further properties of ReadFrom and WriteTo *)

Lemma read_loop_add (k j : nat) :
  forall st : read_state,
    read_loop (k + j) st =
    match read_loop k st with
    | Running st' => read_loop j st'
    | done => done
    end.
Proof.
  induction k as [|k IH]; intros st; [reflexivity|].
  cbn [Nat.add read_loop]. destruct (read_step st); auto.
Qed.

(** The bytes an outcome leaves in the buffer, when it leaves some. *)
Definition content_of (o : outcome) : option Path :=
  match o with
  | Returned _ content _ => Some content
  | Running st => Some (rs_content st)
  | Undefined => None
  end.

(** The buffer of [o] is [content] with more bytes after it. *)
Definition extends (content : Path) (o : outcome) : Prop :=
  match content_of o with
  | Some content' => exists more : Path, content' = content ++ more
  | None => True
  end.

Lemma read_step_extends (st : read_state) :
  extends (rs_content st) (read_step st).
Proof.
  unfold read_step, extends.
  destruct (read_func (rs_world st) (rs_buf st) (request (rs_max_size st)))
    as [[r buf] w].
  destruct (r =? 0); [exists []; cbn; now rewrite app_nil_r|].
  destruct (r =? -1).
  { destruct ((errno w =? EINTR) || (errno w =? EAGAIN));
      exists []; cbn; now rewrite app_nil_r. }
  destruct ((r <? 0) || (r >? sizeof_buf)); [exact I|].
  destruct (rs_max_size st >? 0); [destruct (rs_max_size st >? r)|];
    eexists; reflexivity.
Qed.

Lemma read_loop_extends (fuel : nat) :
  forall st : read_state, extends (rs_content st) (read_loop fuel st).
Proof.
  induction fuel as [|fuel IH]; intros st.
  - exists []. cbn. now rewrite app_nil_r.
  - cbn [read_loop]. pose proof (read_step_extends st) as Hstep.
    destruct (read_step st) as [result c w|st'|]; try exact Hstep.
    specialize (IH st'). unfold extends in *. cbn [content_of] in Hstep.
    destruct Hstep as (m1 & E1).
    destruct (content_of (read_loop fuel st')); [|exact I].
    destruct IH as (m2 & ->). exists (m1 ++ m2).
    now rewrite E1, app_assoc.
Qed.

(** Later rounds only append: what the buffer holds at some point of the
    loop is the beginning of what it holds at any later point and at the
    return, with or without an error. *)
Theorem ReadFrom_only_appends (fuel fuel' : nat) (w : World)
  (buf content : Path) (max_size : Z) (st : read_state) :
  (fuel <= fuel')%nat ->
  ReadFrom fuel w buf content max_size = Running st ->
  extends (rs_content st) (ReadFrom fuel' w buf content max_size).
Proof.
  intros Hle Hrun. unfold ReadFrom in *.
  replace fuel' with (fuel + (fuel' - fuel))%nat by lia.
  rewrite read_loop_add, Hrun. apply read_loop_extends.
Qed.

Lemma read_loop_unbounded (fuel : nat) :
  forall st st' : read_state,
    rs_max_size st <= 0 ->
    read_loop fuel st = Running st' ->
    rs_max_size st' = rs_max_size st.
Proof.
  induction fuel as [|fuel IH]; intros st st' Hmax H.
  - cbn in H. now inversion H.
  - rewrite read_loop_snoc in H.
    destruct (read_loop fuel st) as [? ? ?|st1|] eqn:E; try discriminate H.
    rewrite <- (IH st st1 Hmax E).
    assert (Hmax1 : rs_max_size st1 <= 0)
      by (rewrite (IH st st1 Hmax E); exact Hmax).
    unfold read_step in H.
    destruct (read_func (rs_world st1) (rs_buf st1)
                (request (rs_max_size st1))) as [[r buf] w].
    destruct (r =? 0); [discriminate H|].
    destruct (r =? -1).
    { destruct ((errno w =? EINTR) || (errno w =? EAGAIN));
        [now inversion H | discriminate H]. }
    destruct ((r <? 0) || (r >? sizeof_buf)); [discriminate H|].
    destruct (Z.gtb_spec (rs_max_size st1) 0); [lia|].
    now inversion H.
Qed.

(** Without an allowance ([max_size <= 0]) every request is for 4096
    bytes, and [ReadFrom] returns [true] only when the read primitive has
    returned 0: it reads to the end of the input. *)
Theorem ReadFrom_unbounded (w : World) (buf content : Path) (max_size : Z) :
  max_size <= 0 ->
  (forall (fuel : nat) (st : read_state),
     ReadFrom fuel w buf content max_size = Running st ->
     request (rs_max_size st) = 4096) /\
  (forall (fuel : nat) (content' : Path) (w' : World),
     ReadFrom fuel w buf content max_size = Returned true content' w' ->
     exists (k : nat) (st : read_state) (buf' : Path),
       (k < fuel)%nat /\
       ReadFrom k w buf content max_size = Running st /\
       read_func (rs_world st) (rs_buf st) 4096 = (0, buf', w') /\
       content' = rs_content st).
Proof.
  intros Hmax. unfold ReadFrom.
  assert (Hreq : forall fuel st,
            read_loop fuel (ReadState w buf [] max_size) = Running st ->
            request (rs_max_size st) = 4096).
  { intros fuel st H. apply read_loop_unbounded in H; [|exact Hmax].
    rewrite H. cbn [rs_max_size]. unfold request.
    destruct (Z.gtb_spec max_size 0); [lia | reflexivity]. }
  split; [exact Hreq|].
  induction fuel as [|fuel IH]; intros content' w' H; [discriminate H|].
  rewrite read_loop_snoc in H.
  destruct (read_loop fuel (ReadState w buf [] max_size))
    as [result c w0|st|] eqn:E.
  - inversion H; subst.
    destruct (IH content' w' eq_refl) as (k & st & buf' & Hk & Hrest).
    exists k, st, buf'. split; [lia | exact Hrest].
  - exists fuel, st.
    pose proof (Hreq fuel st E) as Hr.
    pose proof (read_loop_unbounded fuel (ReadState w buf [] max_size)
                  st Hmax E) as Hm.
    cbn [rs_max_size] in Hm.
    unfold read_step in H. rewrite Hr in H.
    destruct (read_func (rs_world st) (rs_buf st) 4096) as [[r buf'] w1].
    destruct (Z.eqb_spec r 0) as [->|].
    + inversion H; subst. exists buf'. repeat split; auto.
    + destruct (r =? -1).
      { destruct ((errno w1 =? EINTR) || (errno w1 =? EAGAIN));
          discriminate H. }
      destruct ((r <? 0) || (r >? sizeof_buf)); [discriminate H|].
      destruct (Z.gtb_spec (rs_max_size st) 0); [lia | discriminate H].
  - discriminate H.
Qed.

(** [WriteTo] returns [true] exactly when the write primitive returns
    something other than -1 that agrees with [size] in its low 32 bits. *)
Theorem WriteTo_accepts (w : World) (data : Path) (size : Z) :
  - 2 ^ 31 <= fst (write_func w data size) < 2 ^ 31 ->
  (fst (WriteTo w data size) = true <->
   fst (write_func w data size) <> -1 /\
   (size - fst (write_func w data size)) mod 2 ^ 32 = 0).
Proof.
  clear read_func errno EINTR EAGAIN.
  unfold WriteTo. destruct (write_func w data size) as [r w1].
  cbn [fst]. intros Hr.
  assert (Hint : to_int size = r <-> (size - r) mod 2 ^ 32 = 0).
  { unfold to_int. split; intros H.
    - apply Z.mod_divide; [lia|].
      exists ((size + 2 ^ 31) / 2 ^ 32).
      pose proof (Z.div_mod (size + 2 ^ 31) (2 ^ 32)). lia.
    - apply Z.mod_divide in H; [|lia]. destruct H as (k & Hk).
      replace (size + 2 ^ 31) with ((r + 2 ^ 31) + k * 2 ^ 32) by lia.
      rewrite Z.mod_add by lia. rewrite Z.mod_small; lia. }
  destruct (Z.eqb_spec r (-1)); cbn [fst].
  - split; [discriminate | tauto].
  - split.
    + intros H. apply Z.eqb_eq in H. split; [assumption|].
      apply Hint. now symmetry.
    + intros [_ H]. apply Z.eqb_eq. symmetry. now apply Hint.
Qed.

(** *** Reading a stream *)

(** What [ReadFrom] is to take of an input: all of it, or as much as a
    positive allowance lets through. *)
Definition allowed (max_size : Z) (input : Path) : Path :=
  if max_size >? 0 then firstn (Z.to_nat max_size) input else input.

Section Stream.

(** The input still to come in a world. *)
Variable remaining : World -> Path.

(** The read primitive hands over the input in order and without error:
    each call returns some of the bytes to come, at least one when there
    are any and no more than asked for, leaves them at the start of the
    buffer, and moves on past them. *)
Definition delivers : Prop :=
  forall (w : World) (buf : Path) (len : Z),
    0 < len ->
    let '(r, buf', w') := read_func w buf len in
    0 <= r <= len /\
    r <= size (remaining w) /\
    (remaining w <> [] -> 0 < r) /\
    firstn (Z.to_nat r) buf' = firstn (Z.to_nat r) (remaining w) /\
    remaining w' = skipn (Z.to_nat r) (remaining w).

Lemma firstn_add (n m : nat) (l : Path) :
  firstn (n + m) l = firstn n l ++ firstn m (skipn n l).
Proof.
  revert l; induction n as [|n IH]; intros l; [reflexivity|].
  destruct l as [|c l]; [now destruct m|].
  cbn [Nat.add firstn skipn app]. now rewrite IH.
Qed.

Lemma allowed_nil (max_size : Z) : allowed max_size [] = [].
Proof. unfold allowed. destruct (max_size >? 0); [apply firstn_nil | reflexivity]. Qed.

Lemma read_loop_stream (fuel : nat) :
  delivers ->
  forall st : read_state,
    (List.length (remaining (rs_world st)) < fuel)%nat ->
    exists w' : World,
      read_loop fuel st =
      Returned true
        (rs_content st ++ allowed (rs_max_size st) (remaining (rs_world st)))
        w' /\
      remaining w' =
      skipn (List.length
               (allowed (rs_max_size st) (remaining (rs_world st))))
        (remaining (rs_world st)).
Proof.
  intros Hd. induction fuel as [|fuel IH]; intros st Hlen; [lia|].
  cbn [read_loop]. unfold read_step.
  destruct (request_range (rs_max_size st)) as [Hreq Hmin].
  pose proof (Hd (rs_world st) (rs_buf st) (request (rs_max_size st))
                (proj1 Hreq)) as Hcall.
  destruct (read_func (rs_world st) (rs_buf st) (request (rs_max_size st)))
    as [[r buf] w1].
  destruct Hcall as (Hr & Hrl & Hpos & Hbuf & Hrem).
  set (input := remaining (rs_world st)) in *.
  unfold size in Hrl.
  destruct (Z.eqb_spec r 0) as [->|Hr0].
  - exists w1. destruct input as [|c input].
    + rewrite allowed_nil, app_nil_r. split; [reflexivity | exact Hrem].
    + assert (0 < 0) by (apply Hpos; discriminate). lia.
  - destruct (Z.eqb_spec r (-1)); [lia|].
    destruct (Z.ltb_spec r 0); [lia|].
    destruct (Z.gtb_spec r sizeof_buf); [lia|]. cbn [orb].
    rewrite Hbuf.
    assert (Hrn : (Z.to_nat r <= List.length input)%nat) by lia.
    assert (Hfst : List.length (firstn (Z.to_nat r) input) = Z.to_nat r)
      by (rewrite length_firstn; lia).
    destruct (Z.gtb_spec (rs_max_size st) 0) as [Hmax|Hmax].
    + specialize (Hmin Hmax).
      assert (Hall : allowed (rs_max_size st) input =
                     firstn (Z.to_nat (rs_max_size st)) input).
      { unfold allowed. destruct (Z.gtb_spec (rs_max_size st) 0);
          [reflexivity | lia]. }
      rewrite Hall.
      destruct (Z.gtb_spec (rs_max_size st) r) as [Hmore|Hfull].
      * destruct (IH (ReadState w1 buf
                        (rs_content st ++ firstn (Z.to_nat r) input)
                        (rs_max_size st - r))) as (w' & Hrun & Hleft).
        { cbn [rs_world]. rewrite Hrem, length_skipn. lia. }
        cbn [rs_world rs_content rs_max_size] in Hrun, Hleft.
        rewrite Hrem in Hrun, Hleft.
        assert (Hall' : allowed (rs_max_size st - r)
                          (skipn (Z.to_nat r) input) =
                        firstn (Z.to_nat (rs_max_size st) - Z.to_nat r)
                          (skipn (Z.to_nat r) input)).
        { unfold allowed. destruct (Z.gtb_spec (rs_max_size st - r) 0);
            [f_equal; lia | lia]. }
        rewrite Hall' in Hrun, Hleft.
        assert (Hsplit : firstn (Z.to_nat (rs_max_size st)) input =
                         firstn (Z.to_nat r) input ++
                         firstn (Z.to_nat (rs_max_size st) - Z.to_nat r)
                           (skipn (Z.to_nat r) input)).
        { rewrite <- firstn_add. f_equal. lia. }
        exists w'. split.
        -- rewrite Hrun, Hsplit. now rewrite app_assoc.
        -- rewrite Hleft, skipn_skipn, Hsplit, length_app, Hfst.
           f_equal. lia.
      * assert (r = rs_max_size st) by lia. subst r.
        exists w1. split; [reflexivity|].
        now rewrite Hrem, Hfst.
    + assert (Hall : forall l, allowed (rs_max_size st) l = l).
      { intros l. unfold allowed.
        destruct (Z.gtb_spec (rs_max_size st) 0); [lia | reflexivity]. }
      destruct (IH (ReadState w1 buf
                      (rs_content st ++ firstn (Z.to_nat r) input)
                      (rs_max_size st))) as (w' & Hrun & Hleft).
      { cbn [rs_world]. rewrite Hrem, length_skipn. lia. }
      cbn [rs_world rs_content rs_max_size] in Hrun, Hleft.
      rewrite Hrem, Hall in Hrun, Hleft. rewrite Hall.
      exists w'. split.
      -- rewrite Hrun, <- app_assoc. now rewrite firstn_skipn.
      -- rewrite Hleft, skipn_all. symmetry. apply skipn_all.
Qed.

(** From a primitive that delivers its input, [ReadFrom] returns [true]
    with exactly the input in the buffer, up to the allowance when there
    is one, and leaves the rest of the input unread.  One call more than
    there are bytes of input is always enough. *)
Theorem ReadFrom_reads_stream (fuel : nat) (w : World) (buf content : Path)
  (max_size : Z) :
  delivers ->
  (List.length (remaining w) < fuel)%nat ->
  exists w' : World,
    ReadFrom fuel w buf content max_size =
    Returned true (allowed max_size (remaining w)) w' /\
    remaining w' =
    skipn (List.length (allowed max_size (remaining w))) (remaining w).
Proof.
  intros Hd Hlen.
  destruct (read_loop_stream fuel Hd (ReadState w buf [] max_size))
    as (w' & Hrun & Hleft); [exact Hlen|].
  exists w'. split; [exact Hrun | exact Hleft].
Qed.

End Stream.

End StreamIO.


Arguments ReadState {World}.
Arguments Returned {World}.
Arguments Running {World}.
Arguments Undefined {World}.
Arguments within {World}.
Arguments accounted {World}.
Arguments ReadFrom {World}.
Arguments WriteTo {World}.

(** *** Two read primitives and a write primitive to run the code on *)

(** A byte stream: each call hands over the next [len] bytes, fewer at the
    end, and 0 once the stream is used up. *)
Definition stream_read (w : Path) (buf : Path) (len : Z) : Z * Path * Path :=
  let chunk := firstn (Z.to_nat len) w in
  (size chunk, chunk ++ skipn (List.length chunk) buf, skipn (Z.to_nat len) w).

(** A script of calls still to come, each with the value returned, the
    bytes left in [buf] and the [errno] set; the first component is the
    [errno] of the last call.  A finished script returns 0. *)
Definition script : Type := Z * list (Z * Path * Z).

Definition script_read (w : script) (buf : Path) (len : Z)
  : Z * Path * script :=
  match snd w with
  | [] => (0, buf, w)
  | (r, bytes, e) :: rest => (r, bytes, (e, rest))
  end.

(** A write primitive that takes 5 bytes whatever it is given. *)
Definition write_five (w : unit) (data : Path) (size : Z) : Z * unit :=
  (5, w).

Lemma stream_read_len (w buf : Path) (len : Z) :
  0 < len -> fst (fst (stream_read w buf len)) <= len.
Proof.
  intros H. cbn. unfold size. rewrite length_firstn. lia.
Qed.

(** A slow stream: it hands over at most 2 bytes a call. *)
Definition trickle_read (w : Path) (buf : Path) (len : Z)
  : Z * Path * Path :=
  stream_read w buf (Z.min len 2).

Lemma stream_read_chunk (w buf : Path) (len : Z) :
  fst (fst (stream_read w buf len)) <= size (snd (fst (stream_read w buf len))).
Proof.
  cbn. unfold size. rewrite length_app. lia.
Qed.

Lemma trickle_read_chunk (w buf : Path) (len : Z) :
  0 < len ->
  fst (fst (trickle_read w buf len)) <= len /\
  fst (fst (trickle_read w buf len)) <=
  size (snd (fst (trickle_read w buf len))).
Proof.
  intros H. unfold trickle_read. split.
  - pose proof (stream_read_len w buf (Z.min len 2)). lia.
  - apply stream_read_chunk.
Qed.

(** A source that never ends: 2 bytes a call, fewer when asked for
    fewer. *)
Definition endless_read (w : unit) (buf : Path) (len : Z)
  : Z * Path * unit :=
  let n := Z.to_nat (Z.min len 2) in
  (Z.of_nat n, repeat "x"%char n ++ skipn n buf, w).

Lemma endless_read_delivers (w : unit) (buf : Path) (len : Z) :
  0 < len ->
  0 < fst (fst (endless_read w buf len)) <= len /\
  fst (fst (endless_read w buf len)) <=
  size (snd (fst (endless_read w buf len))).
Proof.
  intros H. cbn [endless_read fst snd]. unfold size.
  rewrite length_app, repeat_length. lia.
Qed.

Lemma ReadFrom_bounded_witness :
  ReadFrom (fun _ => 0) 4 11 trickle_read 1
    (lit "hello, world") (lit "????") (lit "old") 5 =
  Running (ReadState (lit "llo, world") (lit "he??") (lit "he") 3) /\
  ReadFrom (fun _ => 0) 4 11 trickle_read 2
    (lit "hello, world") (lit "????") (lit "old") 5 =
  Running (ReadState (lit "o, world") (lit "ll??") (lit "hell") 1) /\
  ReadFrom (fun _ => 0) 4 11 trickle_read 3
    (lit "hello, world") (lit "????") (lit "old") 5 =
  Returned true (lit "hello") (lit ", world") /\
  accounted 5
    (ReadFrom (fun _ => 0) 4 11 trickle_read 2
       (lit "hello, world") (lit "????") (lit "old") 5) /\
  within 5
    (ReadFrom (fun _ => 0) 4 11 trickle_read 3
       (lit "hello, world") (lit "????") (lit "old") 5) /\
  (exists (content' : Path) (w' : unit),
     ReadFrom (fun _ => 0) 4 11 endless_read 5
       tt (lit "????") (lit "old") 5 = Returned true content' w' /\
     size content' = 5).
Proof.
  destruct (ReadFrom_bounded Path (fun _ : Path => 0) 4 11 trickle_read)
    as (_ & Hbound & _ & Htrue & _ & _ & Hround & Hacc & _).
  destruct (ReadFrom_bounded unit (fun _ : unit => 0) 4 11 endless_read)
    as (_ & _ & _ & _ & _ & _ & _ & _ & Hfill).
  split; [|split; [|split; [|split; [|split]]]].
  - destruct (Hround 0%nat (lit "hello, world") (lit "????") (lit "old") 5
                (ReadState (lit "hello, world") (lit "????") [] 5)
                2 (lit "he??") (lit "llo, world") eq_refl eq_refl
                ltac:(lia)) as [H _].
    apply H. cbn. lia.
  - destruct (Hround 1%nat (lit "hello, world") (lit "????") (lit "old") 5
                (ReadState (lit "llo, world") (lit "he??") (lit "he") 3)
                2 (lit "ll??") (lit "o, world") eq_refl eq_refl
                ltac:(lia)) as [H _].
    apply H. cbn. lia.
  - destruct (Htrue 2%nat (lit "hello, world") (lit "????") (lit "old") 5
                (ReadState (lit "o, world") (lit "ll??") (lit "hell") 1)
                1 (lit "ol??") (lit ", world") eq_refl eq_refl) as [_ H].
    apply (H ltac:(lia) ltac:(cbn; lia) 3%nat). lia.
  - apply Hacc; [lia | exact trickle_read_chunk].
  - apply Hbound; [lia|].
    intros w buf len Hlen. now apply trickle_read_chunk.
  - apply Hfill; [lia | exact endless_read_delivers | cbn; lia].
Defined.

Lemma ReadFrom_error_witness :
  ReadFrom fst 4 11 script_read 1
    (0, [(-1, lit "", 4); (2, lit "ab", 0)]) (lit "") (lit "") 0 =
  Running (ReadState (4, [(2, lit "ab", 0)]) (lit "") (lit "") 0) /\
  ReadFrom fst 4 11 script_read 3
    (0, [(1, lit "a", 0); (-1, lit "a", 5); (2, lit "bc", 0)])
    (lit "") (lit "") 0 =
  Returned false (lit "a") (5, [(2, lit "bc", 0)]).
Proof.
  split.
  - apply (ReadFrom_error script fst 4 11 script_read 0
             (0, [(-1, lit "", 4); (2, lit "ab", 0)]) (lit "") (lit "") 0
             (ReadState (0, [(-1, lit "", 4); (2, lit "ab", 0)])
                (lit "") [] 0)
             (lit "") (4, [(2, lit "ab", 0)]) eq_refl eq_refl).
    left. reflexivity.
  - apply (ReadFrom_error script fst 4 11 script_read 1
             (0, [(1, lit "a", 0); (-1, lit "a", 5); (2, lit "bc", 0)])
             (lit "") (lit "") 0
             (ReadState (0, [(-1, lit "a", 5); (2, lit "bc", 0)])
                (lit "a") (lit "a") 0)
             (lit "a") (5, [(2, lit "bc", 0)]) eq_refl eq_refl);
      cbn; lia.
Defined.

(** C7.  [WriteTo] compares what the write primitive returns with
    [static_cast<int>(size)], not with [size]: asked to write 2^32 + 5
    bytes through a primitive that writes 5 of them, it returns [true]. *)
Theorem WriteTo_short_write_accepted (data : Path) :
  fst (write_five tt data (2 ^ 32 + 5)) <> 2 ^ 32 + 5 /\
  WriteTo write_five tt data (2 ^ 32 + 5) = (true, tt).
Proof.
  split; [cbn; lia | reflexivity].
Qed.

Arguments extends {World}.
Arguments rs_max_size {World}.
Arguments rs_content {World}.
Arguments content_of {World}.

(** *** The further properties, run *)

Lemma ReadFrom_only_appends_witness :
  extends (lit "ab")
    (ReadFrom fst 4 11 script_read 3
       (0, [(2, lit "ab", 0); (1, lit "c", 0)]) (lit "") (lit "") 0).
Proof.
  apply (ReadFrom_only_appends script fst 4 11 script_read 1 3
           (0, [(2, lit "ab", 0); (1, lit "c", 0)]) (lit "") (lit "") 0
           (ReadState (0, [(1, lit "c", 0)]) (lit "ab") (lit "ab") 0)).
  - lia.
  - reflexivity.
Defined.

Lemma ReadFrom_unbounded_witness :
  request (rs_max_size (ReadState (lit "hello") (lit "") (lit "") 0)) = 4096.
Proof.
  destruct (ReadFrom_unbounded Path (fun _ => 0) 4 11 stream_read
              (lit "hello") (lit "") (lit "") 0) as [H _]; [lia|].
  apply (H 0%nat). reflexivity.
Defined.

Lemma WriteTo_accepts_witness :
  fst (WriteTo write_five tt (lit "hello") (2 ^ 32 + 5)) = true <->
  fst (write_five tt (lit "hello") (2 ^ 32 + 5)) <> -1 /\
  (2 ^ 32 + 5 - fst (write_five tt (lit "hello") (2 ^ 32 + 5))) mod 2 ^ 32
  = 0.
Proof.
  apply (WriteTo_accepts unit write_five tt (lit "hello") (2 ^ 32 + 5)).
  cbn. lia.
Defined.

Lemma WriteTo_int_size_witness :
  snd (WriteTo write_five tt (lit "hello") 5) =
  snd (write_five tt (lit "hello") 5) /\
  (fst (WriteTo write_five tt (lit "hello") 5) = true <->
   fst (write_five tt (lit "hello") 5) = 5).
Proof.
  apply (WriteTo_int_size unit write_five tt (lit "hello") 5). lia.
Defined.

Lemma stream_read_delivers :
  delivers Path stream_read (fun w : Path => w).
Proof.
  intros w buf len Hlen. unfold stream_read, size.
  set (n := Z.to_nat len).
  assert (Hn : (1 <= n)%nat) by lia.
  rewrite length_firstn, Nat2Z.id.
  repeat split.
  - lia.
  - lia.
  - lia.
  - intros Hw. destruct w; [congruence|]. cbn [List.length]. lia.
  - pose proof (length_firstn n w) as Hm. rewrite <- Hm at 1.
    rewrite firstn_app, Nat.sub_diag, firstn_all. cbn [firstn].
    rewrite app_nil_r.
    destruct (Nat.le_ge_cases n (List.length w)) as [H|H].
    + now rewrite Nat.min_l.
    + rewrite Nat.min_r by assumption.
      now rewrite !firstn_all2 by lia.
  - destruct (Nat.le_ge_cases n (List.length w)) as [H|H].
    + now rewrite Nat.min_l.
    + rewrite Nat.min_r by assumption.
      now rewrite skipn_all, skipn_all2.
Qed.

Lemma ReadFrom_reads_stream_witness :
  exists w' : Path,
    ReadFrom (fun _ => 0) 4 11 stream_read 6
      (lit "hello") (lit "????") (lit "old") 3 =
    Returned true (allowed 3 (lit "hello")) w' /\
    w' = skipn (List.length (allowed 3 (lit "hello"))) (lit "hello").
Proof.
  apply (ReadFrom_reads_stream Path (fun _ => 0) 4 11 stream_read
           (fun w : Path => w) 6 (lit "hello") (lit "????") (lit "old") 3).
  - exact stream_read_delivers.
  - cbn. lia.
Defined.

(** ** The directory walker *)

Section Walker.

(** What the enumeration primitive finds in a directory: its direct
    children in enumeration order, each with its is-directory flag. *)
Variable ls : Path -> list (Path * bool).

(** The walker's view of its accumulator: [None] is a walk cut short. *)
Definition visit : Type := list Path -> option (list Path).

(** Modelled from the spec: [ForEachDirectoryEntry] of file_platform.h,
    whose code is not part of this file.  For every direct child of [path]
    it calls [consumer->Consume(child, is_directory)] once, in enumeration
    order. *)
Definition ForEachDirectoryEntry (path : Path)
  (Consume : Path -> bool -> visit) : visit :=
  fun files =>
    fold_left
      (fun (acc : option (list Path)) (entry : Path * bool) =>
         match acc with
         | Some files' => Consume (fst entry) (snd entry) files'
         | None => None
         end)
      (ls path) (Some files).

Section DirectoryTreeWalker.

(** [_walk_entries], the enumeration primitive the walker is built with. *)
Variable _walk_entries : Path -> (Path -> bool -> visit) -> visit.

(** [DirectoryTreeWalker::Consume], with [Walk] as it stands one level of
    recursion further down. *)
Definition Consume (Walk : Path -> visit) (path : Path)
  (is_directory : bool) : visit :=
  fun _files =>
    if is_directory then Walk path _files
    else Some (push_back _files path).

(** [DirectoryTreeWalker::Walk], to a recursion depth of at most [fuel]. *)
Fixpoint Walk (fuel : nat) (path : Path) : visit :=
  match fuel with
  | O => fun _ => None
  | S fuel' => _walk_entries path (Consume (Walk fuel'))
  end.

End DirectoryTreeWalker.

Definition _GetAllFilesUnder (fuel : nat) (path : Path)
  (result : list Path)
  (walk_entries : Path -> (Path -> bool -> visit) -> visit)
  : option (list Path) :=
  Walk walk_entries fuel path result.

Definition GetAllFilesUnder (fuel : nat) (path : Path) (result : list Path)
  : option (list Path) :=
  _GetAllFilesUnder fuel path result ForEachDirectoryEntry.

(** *** Directory trees *)

(** A finite directory tree: files, and directories with their children
    in enumeration order. *)
#[warnings="-register-all"]
Inductive Entry : Type :=
| File (path : Path)
| Dir (path : Path) (children : list Entry).

(** What the enumeration primitive reports for an entry. *)
Definition entry_of (e : Entry) : Path * bool :=
  match e with
  | File p => (p, false)
  | Dir p _ => (p, true)
  end.

(** The files of a tree, depth first, children in enumeration order. *)
Fixpoint files_of (e : Entry) : list Path :=
  match e with
  | File p => [p]
  | Dir _ children => flat_map files_of children
  end.

(** Levels of directories in a tree. *)
Fixpoint height (e : Entry) : nat :=
  match e with
  | File _ => O
  | Dir _ children => S (list_max (map height children))
  end.

(** The enumeration primitive presents the tree: each directory of the
    tree lists exactly its children, in their order. *)
#[warnings="-register-all"]
Inductive presents : Entry -> Prop :=
| presents_File (p : Path) : presents (File p)
| presents_Dir (p : Path) (children : list Entry) :
    ls p = map entry_of children ->
    Forall presents children ->
    presents (Dir p children).

(** [inside e t]: [e] is [t] or lies below it. *)
Inductive inside (e : Entry) : Entry -> Prop :=
| inside_here : inside e e
| inside_child (c : Entry) (p : Path) (children : list Entry) :
    In c children -> inside e c -> inside e (Dir p children).

(** The entries recursive descent from [root] comes across. *)
Inductive reachable (root : Path) : Path * bool -> Prop :=
| reachable_child (e : Path * bool) :
    In e (ls root) -> reachable root e
| reachable_below (d : Path) (e : Path * bool) :
    reachable root (d, true) -> In e (ls d) -> reachable root e.

Section Entry_induction.

Variable P : Entry -> Prop.
Hypothesis P_File : forall p : Path, P (File p).
Hypothesis P_Dir :
  forall (p : Path) (children : list Entry),
    Forall P children -> P (Dir p children).

Fixpoint Entry_children_ind (e : Entry) : P e :=
  match e with
  | File p => P_File p
  | Dir p children =>
      P_Dir p children
        ((fix all (l : list Entry) : Forall P l :=
            match l with
            | [] => Forall_nil P
            | c :: l' => Forall_cons c (Entry_children_ind c) (all l')
            end) children)
  end.

End Entry_induction.

Lemma height_children (p : Path) (children : list Entry) (fuel : nat) :
  (height (Dir p children) <= S fuel)%nat ->
  Forall (fun c => (height c <= fuel)%nat) children.
Proof.
  cbn [height]. intros H. apply le_S_n in H.
  apply list_max_le in H. rewrite Forall_map in H. exact H.
Qed.

Lemma walk_children (walk : Path -> visit) (children : list Entry) :
  Forall (fun c =>
            match c with
            | File _ => True
            | Dir q below =>
                forall files, walk q files = Some (files ++ files_of c)
            end) children ->
  forall files : list Path,
    fold_left
      (fun (acc : option (list Path)) (entry : Path * bool) =>
         match acc with
         | Some files' => Consume walk (fst entry) (snd entry) files'
         | None => None
         end)
      (map entry_of children) (Some files) =
    Some (files ++ flat_map files_of children).
Proof.
  induction 1 as [|c children Hc _ IH]; intros files.
  - cbn. now rewrite app_nil_r.
  - cbn [map fold_left flat_map].
    destruct c as [q|q below]; cbn [entry_of fst snd Consume].
    + rewrite IH. unfold push_back. cbn [files_of].
      now rewrite <- app_assoc.
    + rewrite Hc, IH. now rewrite <- app_assoc.
Qed.

(** An injected primitive that keeps the contract of the platform's. *)
Definition enumerates
  (walk_entries : Path -> (Path -> bool -> visit) -> visit) : Prop :=
  forall (p : Path) (consume : Path -> bool -> visit) (files : list Path),
    walk_entries p consume files = ForEachDirectoryEntry p consume files.

Lemma Walk_tree (walk_entries : Path -> (Path -> bool -> visit) -> visit)
  (fuel : nat) :
  enumerates walk_entries ->
  forall (p : Path) (children : list Entry) (files : list Path),
    presents (Dir p children) ->
    (height (Dir p children) <= fuel)%nat ->
    Walk walk_entries fuel p files =
    Some (files ++ files_of (Dir p children)).
Proof.
  intros Hwe.
  induction fuel as [|fuel IH]; intros p children files Hp Hh.
  - cbn in Hh. lia.
  - inversion Hp as [|? ? Hls Hall]; subst.
    cbn [Walk]. rewrite Hwe. unfold ForEachDirectoryEntry. rewrite Hls.
    apply walk_children.
    pose proof (height_children p children fuel Hh) as Hhs.
    rewrite Forall_forall in *.
    intros c Hc. destruct c as [q|q below]; [exact I|].
    intros files'. apply IH; auto.
Qed.

Lemma inside_trans (a b t : Entry) : inside b t -> inside a b -> inside a t.
Proof.
  induction 1 as [|c p children Hc _ IH]; intros Hab; [assumption|].
  eapply inside_child; eauto.
Qed.

Lemma inside_presents (e t : Entry) : inside e t -> presents t -> presents e.
Proof.
  induction 1 as [|c p children Hc _ IH]; intros Ht; [assumption|].
  inversion Ht as [|? ? _ Hall]; subst.
  rewrite Forall_forall in Hall. auto.
Qed.

Lemma inside_file (q : Path) (t : Entry) :
  inside (File q) t -> In q (files_of t).
Proof.
  induction 1 as [|c p children Hc _ IH]; [now left|].
  cbn [files_of]. apply in_flat_map. eauto.
Qed.

Lemma file_inside (q : Path) (t : Entry) :
  In q (files_of t) -> inside (File q) t.
Proof.
  induction t as [p|p children IH] using Entry_children_ind; cbn [files_of].
  - intros [->|[]]. constructor.
  - intros Hin. apply in_flat_map in Hin. destruct Hin as (c & Hc & Hq).
    rewrite Forall_forall in IH.
    eapply inside_child; eauto.
Qed.

Lemma reachable_trans (root d : Path) (e : Path * bool) :
  reachable root (d, true) -> reachable d e -> reachable root e.
Proof.
  intros Hd. induction 1 as [e He|d' e _ IH He].
  - eapply reachable_below; eauto.
  - eapply reachable_below; eauto.
Qed.

Lemma inside_reachable (e t : Entry) :
  inside e t -> presents t ->
  e = t \/ match t with
           | File _ => False
           | Dir d _ => reachable d (entry_of e)
           end.
Proof.
  induction 1 as [|c p children Hc _ IH]; intros Ht; [now left|].
  right. inversion Ht as [|? ? Hls Hall]; subst.
  rewrite Forall_forall in Hall.
  assert (Hlisted : In (entry_of c) (ls p)).
  { rewrite Hls. now apply in_map. }
  destruct (IH (Hall c Hc)) as [->|Hbelow].
  - now apply reachable_child.
  - destruct c as [q|q below]; [contradiction|].
    eapply reachable_trans; [|exact Hbelow].
    now apply reachable_child.
Qed.

Lemma reachable_inside (root : Path) (children : list Entry)
  (e : Path * bool) :
  presents (Dir root children) -> reachable root e ->
  exists c : Entry, entry_of c = e /\ inside c (Dir root children).
Proof.
  intros Ht. induction 1 as [e He|d e _ IH He].
  - inversion Ht as [|? ? Hls _]; subst. rewrite Hls in He.
    apply in_map_iff in He. destruct He as (c & Hc & Hin).
    exists c. split; [assumption|].
    eapply inside_child; [eassumption | constructor].
  - destruct IH as (c0 & Hc0 & Hin0).
    destruct c0 as [q|q below]; [discriminate Hc0|].
    cbn in Hc0. inversion Hc0; subst q.
    pose proof (inside_presents _ _ Hin0 Ht) as Hp0.
    inversion Hp0 as [|? ? Hls _]; subst. rewrite Hls in He.
    apply in_map_iff in He. destruct He as (c & Hc & Hin).
    exists c. split; [assumption|].
    eapply inside_trans; [exact Hin0|].
    eapply inside_child; [eassumption | constructor].
Qed.

(** C4. When the enumeration primitive presents a directory tree under
    [path], the walk leaves in [result] what was there, followed by the
    files of the tree in depth-first order, children in enumeration order;
    these are exactly the non-directory entries that recursive descent
    from [path] reaches.  This holds for [_GetAllFilesUnder] with any
    injected primitive that keeps the contract, and for
    [GetAllFilesUnder]. *)
Theorem GetAllFilesUnder_walks_tree
  (walk_entries : Path -> (Path -> bool -> visit) -> visit)
  (path : Path) (children : list Entry) (result : list Path) (fuel : nat) :
  enumerates walk_entries ->
  presents (Dir path children) ->
  (height (Dir path children) <= fuel)%nat ->
  _GetAllFilesUnder fuel path result walk_entries =
    Some (result ++ files_of (Dir path children)) /\
  GetAllFilesUnder fuel path result =
    Some (result ++ files_of (Dir path children)) /\
  (forall q : Path,
     In q (files_of (Dir path children)) <-> reachable path (q, false)).
Proof.
  intros Hwe Hp Hh. split; [|split].
  - unfold _GetAllFilesUnder. now apply Walk_tree.
  - unfold GetAllFilesUnder, _GetAllFilesUnder.
    apply Walk_tree; [|assumption|assumption].
    intros p consume files. reflexivity.
  - intros q. split.
    + intros Hq. apply file_inside in Hq.
      destruct (inside_reachable _ _ Hq Hp) as [H|H];
        [discriminate H | exact H].
    + intros Hq.
      destruct (reachable_inside _ _ _ Hp Hq) as (c & Hc & Hin).
      destruct c as [q'|q' below]; [|discriminate Hc].
      inversion Hc; subst. now apply inside_file.
Qed.

(** *** Directories that contain themselves *)

Lemma fold_cut_short (walk : Path -> visit) (entries : list (Path * bool)) :
  fold_left
    (fun (acc : option (list Path)) (entry : Path * bool) =>
       match acc with
       | Some files' => Consume walk (fst entry) (snd entry) files'
       | None => None
       end)
    entries None = None.
Proof. induction entries as [|e entries IH]; [reflexivity | exact IH]. Qed.

Lemma reachable_first (root : Path) (e : Path * bool) :
  reachable root e ->
  In e (ls root) \/
  exists d : Path, In (d, true) (ls root) /\ reachable d e.
Proof.
  induction 1 as [e He|d e _ IH He]; [now left|]. right.
  destruct IH as [Hd|(d1 & Hd1 & Hreach)].
  - exists d. split; [assumption | now apply reachable_child].
  - exists d1. split; [assumption|]. eapply reachable_below; eauto.
Qed.

(** A walk with no end: cut short at every depth. *)
Definition endless
  (walk_entries : Path -> (Path -> bool -> visit) -> visit) (d : Path)
  : Prop :=
  forall (fuel : nat) (files : list Path),
    Walk walk_entries fuel d files = None.

Lemma Walk_into (walk_entries : Path -> (Path -> bool -> visit) -> visit)
  (fuel : nat) (p d : Path) (files : list Path) :
  enumerates walk_entries ->
  In (d, true) (ls p) ->
  (forall files' : list Path, Walk walk_entries fuel d files' = None) ->
  Walk walk_entries (S fuel) p files = None.
Proof.
  intros Hwe Hin Hd. cbn [Walk]. rewrite Hwe. unfold ForEachDirectoryEntry.
  apply in_split in Hin. destruct Hin as (l1 & l2 & ->).
  rewrite fold_left_app. cbn [fold_left fst snd].
  match goal with
  | |- fold_left ?f l2 (match ?acc with _ => _ end) = None =>
      destruct acc as [files1|]
  end.
  - cbn [Consume]. rewrite Hd. apply fold_cut_short.
  - apply fold_cut_short.
Qed.

Lemma endless_up (walk_entries : Path -> (Path -> bool -> visit) -> visit)
  (p d : Path) :
  enumerates walk_entries ->
  In (d, true) (ls p) -> endless walk_entries d -> endless walk_entries p.
Proof.
  intros Hwe Hin Hd [|fuel] files; [reflexivity|].
  eapply Walk_into; eauto.
Qed.

Lemma endless_cycle (walk_entries : Path -> (Path -> bool -> visit) -> visit) :
  enumerates walk_entries ->
  forall (fuel : nat) (d : Path) (files : list Path),
    reachable d (d, true) -> Walk walk_entries fuel d files = None.
Proof.
  intros Hwe. induction fuel as [|fuel IH]; intros d files Hcycle;
    [reflexivity|].
  destruct (reachable_first d (d, true) Hcycle) as [Hin|(d1 & Hin & Hback)].
  - eapply Walk_into; eauto.
  - eapply Walk_into; eauto. intros files'. apply IH.
    eapply reachable_below; eauto.
Qed.

Lemma endless_below (walk_entries : Path -> (Path -> bool -> visit) -> visit)
  (root : Path) (e : Path * bool) :
  enumerates walk_entries ->
  reachable root e ->
  forall d : Path,
    e = (d, true) -> endless walk_entries d -> endless walk_entries root.
Proof.
  intros Hwe. induction 1 as [e He|d' e _ IH He]; intros d -> Hd.
  - eapply endless_up; eauto.
  - apply (IH d' eq_refl). eapply endless_up; eauto.
Qed.

(** The walker keeps no record of where it has been: when descent from
    [path] reaches a directory that descent reaches again from itself, the
    walk of [path] has no end, whatever depth of recursion it is given. *)
Theorem GetAllFilesUnder_cycle
  (walk_entries : Path -> (Path -> bool -> visit) -> visit)
  (path d : Path) (result : list Path) (fuel : nat) :
  enumerates walk_entries ->
  path = d \/ reachable path (d, true) ->
  reachable d (d, true) ->
  _GetAllFilesUnder fuel path result walk_entries = None /\
  GetAllFilesUnder fuel path result = None.
Proof.
  intros Hwe Hd Hcycle.
  assert (H : forall we, enumerates we -> endless we path).
  { intros we Hwe'.
    assert (Hend : endless we d)
      by (intros f fs; now apply endless_cycle).
    destruct Hd as [->|Hd]; [exact Hend|].
    eapply endless_below; eauto. }
  split.
  - apply (H walk_entries Hwe).
  - apply (H ForEachDirectoryEntry). intros p consume files. reflexivity.
Qed.

End Walker.

(** The tree of the specification's example: directories a and a/b, files
    a/f1 and a/b/f2. *)
Definition example_ls (path : Path) : list (Path * bool) :=
  if str_eqb path (lit "a") then [(lit "a/f1", false); (lit "a/b", true)]
  else if str_eqb path (lit "a/b") then [(lit "a/b/f2", false)]
  else [].

Lemma GetAllFilesUnder_walks_tree_witness :
  GetAllFilesUnder example_ls 2 (lit "a") [lit "x"] =
  Some [lit "x"; lit "a/f1"; lit "a/b/f2"].
Proof.
  apply (GetAllFilesUnder_walks_tree example_ls
           (ForEachDirectoryEntry example_ls) (lit "a")
           [File (lit "a/f1"); Dir (lit "a/b") [File (lit "a/b/f2")]]
           [lit "x"] 2).
  - intros p consume files. reflexivity.
  - constructor; [reflexivity|].
    repeat constructor.
  - cbn. lia.
Defined.

(** A directory a whose subdirectory a/loop lists itself. *)
Definition cycle_ls (path : Path) : list (Path * bool) :=
  if str_eqb path (lit "a")
  then [(lit "a/f", false); (lit "a/loop", true)]
  else if str_eqb path (lit "a/loop") then [(lit "a/loop", true)]
  else [].

Lemma GetAllFilesUnder_cycle_witness :
  GetAllFilesUnder cycle_ls 100 (lit "a") [] = None.
Proof.
  apply (GetAllFilesUnder_cycle cycle_ls (ForEachDirectoryEntry cycle_ls)
           (lit "a") (lit "a/loop") [] 100).
  - intros p consume files. reflexivity.
  - right. apply reachable_child. cbn. auto.
  - apply reachable_child. cbn. auto.
Defined.
